(** * User staking data: shallow embedding of [useUserStakingData]

    Source: [src/providers/local/staking/userUserStakingData.ts].

    Every [computed] of the composable is a pure function of the values it
    reads, so each becomes a Rocq function of those values.  Query results
    delivered by the query executor are records holding a status and the
    last data; JavaScript objects used as dictionaries are [gmap]s. *)

From Stdlib Require Import ZArith QArith Qpower Lia.
From Stdlib Require Import Ascii String DecimalString DecimalPos.
From stdpp Require Import gmap strings list fin_maps.

Local Open Scope string_scope.
Local Open Scope list_scope.

(** ** Data model (the exported TypeScript types) *)

(** [UserGuageShare = { id; gauge: { poolId }; balance }]. *)
Record Gauge := mkGauge { poolId : string }.

Record UserGuageShare := mkShare {
  share_id : string;
  gauge    : Gauge;
  balance  : string
}.

(** [UserLiquidityGauge = { id?; poolId; shares: { balance }[] }]. *)
Record UserLiquidityGauge := mkLG {
  lg_id     : option string;
  lg_poolId : string;
  lg_shares : list string
}.

(** [UserGuageSharesResponse]. *)
Record UserGuageSharesResponse := mkResp {
  gaugeShares     : list UserGuageShare;
  liquidityGauges : list UserLiquidityGauge
}.

(** ** Library functions used by the composable *)

Module Lodash.

(** [intersection(xs, ys)]: the values of [xs] that also occur in [ys],
    each kept once, in the order of their first occurrence in [xs]
    (lodash pushes a value when it has not been pushed yet and every
    other array includes it). *)
Definition push_common (ys : list string) (res : list string) (x : string)
  : list string :=
  if bool_decide (x ∉ res) && bool_decide (x ∈ ys) then res ++ [x] else res.

Definition intersection (xs ys : list string) : list string :=
  fold_left (push_common ys) xs [].

End Lodash.

Module JsObject.

(** [Object.fromEntries(entries)]: entries are written in order, so a
    later entry with the same key replaces an earlier one. *)
Definition fromEntries (entries : list (string * string))
  : gmap string string :=
  fold_left (λ o kv, <[kv.1 := kv.2]> o) entries ∅.

End JsObject.

(** ** Query arguments *)

(** [intersection(userPoolIds.value, POOLS.Stakable.AllowList)]; the
    allow-list is a constant of the repository that is passed in. *)
Definition stakeableUserPoolIds (userPoolIds AllowList : list string)
  : list string :=
  Lodash.intersection userPoolIds AllowList.

(** ** Computed values over the gauge-share response *)

Definition userGaugeShares (stakingData : option UserGuageSharesResponse)
  : list UserGuageShare :=
  match stakingData with
  | None => []
  | Some d => gaugeShares d
  end.

Definition shareEntry (gaugeShare : UserGuageShare) : string * string :=
  (poolId (gauge gaugeShare), balance gaugeShare).

Definition stakedSharesMap (shares : list UserGuageShare)
  : gmap string string :=
  JsObject.fromEntries (map shareEntry shares).

(** ** Arbitrary-precision decimals ([bignumber.js], reached through [bnum])

    A value is NaN, an infinity, or a finite decimal [c * 10^e]: the signed
    coefficient [c] and the exponent [e] of its last digit.  The library
    keeps a finite value without trailing zeros in the coefficient, and
    zero as coefficient 0; [normalise] restores that form after every
    operation.  The sign of zero is not tracked: [toString] prints both
    zeros as ["0"].  The library's bound on exponents (a value whose
    exponent passes 1e9 in magnitude overflows to an infinity or
    underflows to zero) is not represented: fiat amounts stay far inside
    it. *)
Module BigNumber.

Local Open Scope Z_scope.

Inductive t :=
| NaN
| Inf (negative : bool)
| Fin (c e : Z).

(** Removes up to [fuel] trailing zeros of a non-zero coefficient. *)
Fixpoint strip (fuel : nat) (c e : Z) : Z * Z :=
  match fuel with
  | O => (c, e)
  | S fuel' =>
      if c mod 10 =? 0 then strip fuel' (c / 10) (e + 1) else (c, e)
  end.

(** A coefficient [c <> 0] has at most [log2 |c|] trailing zeros. *)
Definition fuel (c : Z) : nat := Z.to_nat (Z.log2 (Z.abs c)).

Definition normalise (c e : Z) : t :=
  if c =? 0 then Fin 0 0
  else let '(c', e') := strip (fuel c) c e in Fin c' e'.

(** [bnum(0)]. *)
Definition zero : t := Fin 0 0.

(** [x.plus(y)]: NaN is absorbing, opposite infinities give NaN, an
    infinity absorbs finite values, and finite values are added exactly
    after aligning both coefficients on the smaller exponent. *)
Definition plus (x y : t) : t :=
  match x, y with
  | NaN, _ | _, NaN => NaN
  | Inf a, Inf b => if Bool.eqb a b then Inf a else NaN
  | Inf a, Fin _ _ => Inf a
  | Fin _ _, Inf b => Inf b
  | Fin c1 e1, Fin c2 e2 =>
      let e := Z.min e1 e2 in
      normalise (c1 * 10 ^ (e1 - e) + c2 * 10 ^ (e2 - e)) e
  end.

Definition isFinite (x : t) : bool :=
  match x with Fin _ _ => true | _ => false end.

(** *** [toString] *)

(** [EXPONENTIAL_AT] of the library's default configuration: exponential
    notation is used for a scientific exponent [<= TO_EXP_NEG] or
    [>= TO_EXP_POS]. *)
Definition TO_EXP_NEG : Z := -7.
Definition TO_EXP_POS : Z := 21.

Definition digits (n : Z) : string :=
  match n with
  | Zpos p => NilEmpty.string_of_uint (Pos.to_uint p)
  | _ => "0"
  end.

Definition intToString (n : Z) : string :=
  if n <? 0 then "-" +:+ digits (Z.abs n) else digits n.

Fixpoint zeros (n : nat) : string :=
  match n with
  | O => ""
  | S n' => String "0"%char (zeros n')
  end.

(** [toExponential(str, e)]. *)
Definition toExponential (str : string) (e : Z) : string :=
  (match str with
   | String ch (String _ _ as rest) => String ch ("." +:+ rest)
   | _ => str
   end) +:+ (if e <? 0 then "e" else "e+") +:+ intToString e.

(** [toFixedPoint(str, e, '0')], [e] being the exponent of the first
    digit of [str]. *)
Definition toFixedPoint (str : string) (e : Z) : string :=
  let len := Z.of_nat (String.length str) in
  if e <? 0 then "0." +:+ zeros (Z.to_nat (- e - 1)) +:+ str
  else if len <? e + 1 then str +:+ zeros (Z.to_nat (e + 1 - len))
  else if e + 1 <? len then
    substring 0 (Z.to_nat (e + 1)) str +:+ "." +:+
    substring (Z.to_nat (e + 1)) (Z.to_nat (len - (e + 1))) str
  else str.

Definition toString (x : t) : string :=
  match x with
  | NaN => "NaN"
  | Inf negative => if negative then "-Infinity" else "Infinity"
  | Fin c e =>
      if c =? 0 then "0"
      else
        let str := digits (Z.abs c) in
        let se := e + Z.of_nat (String.length str) - 1 in
        let body :=
          if (se <=? TO_EXP_NEG) || (TO_EXP_POS <=? se)
          then toExponential str se
          else toFixedPoint str se in
        if c <? 0 then "-" +:+ body else body
  end.

(** *** Reading decimal literals

    The constructor applied to a plain decimal literal: an optional
    sign, digits, an optional fraction; ["NaN"] and the infinities by
    name; anything else is NaN.  The composable itself is stated over an
    arbitrary constructor (exponent notation, prefixes and the like are
    the library's business); this reader instantiates it on concrete
    inputs. *)
Definition digitValue (ch : ascii) : option Z :=
  let n := Z.of_N (Ascii.N_of_ascii ch) in
  if (48 <=? n) && (n <=? 57) then Some (n - 48) else None.

(** [readDigits seenDot any c scale s]: [c] accumulates the digits,
    [scale] counts those after the point. *)
Fixpoint readDigits (seenDot any : bool) (c scale : Z) (s : string)
  : option (Z * Z) :=
  match s with
  | EmptyString => if any then Some (c, scale) else None
  | String ch rest =>
      if Ascii.eqb ch "."%char then
        if seenDot then None else readDigits true any c scale rest
      else
        match digitValue ch with
        | None => None
        | Some d =>
            readDigits seenDot true (c * 10 + d)
              (if seenDot then scale + 1 else scale) rest
        end
  end.

Definition ofDecimalString (s : string) : t :=
  if String.eqb s "Infinity" then Inf false
  else if String.eqb s "-Infinity" then Inf true
  else
    let '(negative, body) :=
      match s with
      | String "-"%char rest => (true, rest)
      | String "+"%char rest => (false, rest)
      | _ => (false, s)
      end in
    match readDigits false false 0 0 body with
    | None => NaN
    | Some (c, scale) => normalise (if negative then - c else c) (- scale)
    end.

(** *** Numeric reading of a finite value *)

Definition Qvalue (c e : Z) : Q := (inject_Z c * (10 # 1) ^ e)%Q.

Definition valueQ (x : t) : Q :=
  match x with
  | Fin c e => Qvalue c e
  | _ => 0%Q
  end.

End BigNumber.

Definition Qsum (l : list Q) : Q := fold_right Qplus 0%Q l.

(** ** JavaScript values and control flow *)

(** A thrown or rejected [Error] object. *)
Record JsError := mkError { err_name : string; err_message : string }.

(** Outcome of evaluating an expression, or of awaiting a promise. *)
Inductive Completion (A : Type) :=
| Returns (a : A)
| Throws (e : JsError).
Arguments Returns {A} a.
Arguments Throws {A} e.

(** Truthiness of a string: only the empty string is falsy. *)
Definition js_truthy (s : string) : bool := negb (String.eqb s "").

(** [s.toLowerCase()] on ASCII text (addresses are hexadecimal). *)
Definition lowerAscii (ch : ascii) : ascii :=
  let n := Ascii.N_of_ascii ch in
  if ((65 <=? n) && (n <=? 90))%N then Ascii.ascii_of_N (n + 32) else ch.

Fixpoint toLowerCase (s : string) : string :=
  match s with
  | EmptyString => EmptyString
  | String ch rest => String (lowerAscii ch) (toLowerCase rest)
  end.

(** ** Query results, as the query executor exposes them *)

Inductive QueryStatus := Idle | Loading | Success | Error.

Record QueryResult (A : Type) := mkQuery {
  status     : QueryStatus;
  data       : option A;
  isFetching : bool
}.
Arguments mkQuery {A} _ _ _.
Arguments status {A} _.
Arguments data {A} _.
Arguments isFetching {A} _.

Definition isLoading {A} (q : QueryResult A) : bool :=
  match status q with Loading => true | _ => false end.

Definition isIdle {A} (q : QueryResult A) : bool :=
  match status q with Idle => true | _ => false end.

Definition isRefetching {A} (q : QueryResult A) : bool :=
  isFetching q && negb (isLoading q).

(** What can happen to one query: its fetch key changes, the executor
    attempts an automatic run, or the run in flight settles or fails. *)
Inductive QueryEvent (A : Type) :=
| KeyChanged
| Trigger
| Settle (value : A)
| Failure.
Arguments KeyChanged {A}.
Arguments Trigger {A}.
Arguments Settle {A} value.
Arguments Failure {A}.

Definition initialQuery {A} : QueryResult A := mkQuery Idle None false.

(** Modelled from the spec: the query executor ([useQuery], and the
    repository's [useGraphQuery] and [usePoolsQuery] wrapping it) is not
    among the sources.  Its contract is the four-state machine of the
    Aggregator section: a query is idle while disabled or not yet
    triggered, never executes when disabled, is loading while in flight
    with no prior result, and keeps the last value while refetching or
    after a failed run; a changed fetch key starts from an empty result.
    Only automatic runs are events here: the manual re-fetch affordances
    are returned to the caller and never fired by the composable. *)
Definition queryStep {A} (enabled : bool) (q : QueryResult A)
  (ev : QueryEvent A) : QueryResult A :=
  match ev with
  | KeyChanged => initialQuery
  | Trigger =>
      if enabled then
        mkQuery (match data q with None => Loading | Some _ => status q end)
                (data q) true
      else q
  | Settle v => if isFetching q then mkQuery Success (Some v) false else q
  | Failure => if isFetching q then mkQuery Error (data q) false else q
  end.

(** [refetch()], the manual re-fetch of [useQuery] that the composable
    hands to its caller: it starts a run whether or not the query is
    enabled, and the query is loading while it holds no data. *)
Definition refetch {A} (q : QueryResult A) : QueryResult A :=
  mkQuery (match data q with None => Loading | Some _ => status q end)
          (data q) true.

(** The run in flight ends with the outcome of the query function. *)
Definition settle {A} (q : QueryResult A) (outcome : Completion A)
  : QueryResult A :=
  match outcome with
  | Returns v => queryStep true q (Settle v)
  | Throws _ => queryStep true q Failure
  end.

(** ** Pools *)

(** A pool-metadata record: only [id] is read here, the other fields are
    carried along. *)
Record Pool (PoolData : Type) := mkPool {
  id       : string;
  poolData : PoolData
}.
Arguments mkPool {PoolData} _ _.
Arguments id {PoolData} _.
Arguments poolData {PoolData} _.

(** [DecoratedPoolWithShares]: [{ ...pool, shares, bpt }]; [bpt] is what
    the dictionary lookup gave, possibly [undefined]. *)
Record StakedPool (PoolData : Type) := mkStakedPool {
  pool   : Pool PoolData;
  shares : string;
  bpt    : option string
}.
Arguments mkStakedPool {PoolData} _ _ _.
Arguments pool {PoolData} _.
Arguments shares {PoolData} _.
Arguments bpt {PoolData} _.

(** One page of the pool query, and the paginated response. *)
Record PoolsPage (PoolData : Type) := mkPage { pools : list (Pool PoolData) }.
Arguments mkPage {PoolData} _.
Arguments pools {PoolData} _.

Record PoolsResponse (PoolData : Type) :=
  mkPages { pages : list (PoolsPage PoolData) }.
Arguments mkPages {PoolData} _.
Arguments pages {PoolData} _.

(** [userPoolsResponse.value?.pools || []] and the ids of those pools. *)
Definition userPools {PoolData} (userPoolsResponse : option (list (Pool PoolData)))
  : list (Pool PoolData) :=
  match userPoolsResponse with
  | Some ps => ps
  | None => []
  end.

Definition userPoolIds {PoolData}
  (userPoolsResponse : option (list (Pool PoolData))) : list string :=
  map id (userPools userPoolsResponse).

(** ** Fetch key and query document of the gauge-share query *)

Record StakingKeyArgs := mkKeyArgs {
  key_account     : string;
  key_userPoolIds : list string
}.

Inductive QueryKeyPart :=
| KStr (s : string)
| KArgs (a : StakingKeyArgs).

Record GaugeSharesWhere := mkSharesWhere {
  where_user       : string;
  where_balance_gt : string
}.

Record StakingQueryDocument := mkDocument {
  doc_gaugeShares_where           : GaugeSharesWhere;
  doc_liquidityGauges_poolId_in   : list string
}.

(** The second argument of [useGraphQuery]:
    [['staking', 'data', { account, userPoolIds }]]. *)
Definition stakingDataKey (account : string) (userPoolIds : list string)
  : list QueryKeyPart :=
  [KStr "staking"; KStr "data"; KArgs (mkKeyArgs account userPoolIds)].

(** The third argument of [useGraphQuery]. *)
Definition stakingDataDocument (account : string)
  (userPoolIds AllowList : list string) : StakingQueryDocument :=
  mkDocument (mkSharesWhere (toLowerCase account) "0")
             (stakeableUserPoolIds userPoolIds AllowList).

(** ** Enabling flags and derived lists *)

Definition isStakingQueryEnabled (isL2 : bool) : bool := negb isL2.

(** [!!poolAddress.value && poolAddress.value != '']. *)
Definition isStakedSharesQueryEnabled (poolAddress : string) : bool :=
  js_truthy poolAddress && negb (String.eqb poolAddress "").

(** [stakedSharesResponse.value || '0']. *)
Definition stakedSharesForProvidedPool (stakedSharesResponse : option string)
  : string :=
  match stakedSharesResponse with
  | Some reading => if js_truthy reading then reading else "0"
  | None => "0"
  end.

(** [userGaugeShares.value] is always an array, hence truthy: the second
    disjunct of the guard is never taken. *)
Definition stakedPoolIds (isLoadingUserStakingData : bool)
  (shares : list UserGuageShare) : list string :=
  if isLoadingUserStakingData || negb true then []
  else map (λ share, poolId (gauge share)) shares.

Definition isStakedPoolsQueryEnabled (stakedPoolIds : list string) : bool :=
  Nat.ltb 0 (length stakedPoolIds).

(** ** Asynchronous computations

    An [async] function is run to the point where its promise settles; the
    collaborator calls it awaited on the way are recorded in order. *)
(** What a caller of the [LiquidityGauge] constructor puts where the ABI
    is expected: nothing (the class then takes its own ABI file), or the
    provider object. *)
Inductive AbiArgument :=
| DefaultAbi
| ProviderObject.

Inductive Call :=
| CallGetAddress (poolAddress : string)
| CallGetGaugeAddress (poolAddress : string)
| CallNewContract (gaugeAddress : string) (abi : AbiArgument).

Definition Async (A : Type) : Type := list Call * Completion A.

Definition resolve {A} (a : A) : Async A := ([], Returns a).
Definition reject {A} (e : JsError) : Async A := ([], Throws e).
Definition await {A} (c : Call) (outcome : Completion A) : Async A :=
  ([c], outcome).

#[global] Instance Async_bind : MBind Async := λ A B k m,
  match m with
  | (calls, Returns a) => let '(calls', r) := k a in (calls ++ calls', r)
  | (calls, Throws e) => (calls, Throws e)
  end.

(** The [Error] thrown by [getStakedShares] when no pool address is set. *)
Definition missingPoolAddress : JsError :=
  mkError "Error"
    "Attempted to get staked shares, however useStaking was initialised without a pool address.".

(** Calling [gauge.balance], a member the class [LiquidityGauge] does not
    have. *)
Definition balanceIsNotAFunction : JsError :=
  mkError "TypeError" "gauge.balance is not a function".

(** Reading [.pools] of [pages[0]] when [pages] is empty. *)
Definition undefinedPage : JsError :=
  mkError "TypeError" "Cannot read properties of undefined (reading 'pools')".

(** A valuation used to evaluate the composable on concrete inputs: one
    unit of fiat per staked token, NaN for an absent balance. *)
Definition parValuation {PoolData} (_ : Pool PoolData) (bpt : option string)
  : string :=
  match bpt with
  | Some b => BigNumber.toString (BigNumber.ofDecimalString b)
  | None => "NaN"
  end.

Section Composable.

Context {PoolData ContractInstance : Type}.

(** Collaborators: the valuation of a staked position, the decimal
    constructor [bnum] applies to a string operand, address checksumming,
    gauge lookup, the contract binding of the ethers library (its
    constructor, given the address and what arrives as ABI) and unit
    formatting. *)
Variable getBptBalanceFiatValue : Pool PoolData → option string → string.
Variable bnumOfString : string → BigNumber.t.
Variable getAddress : string → Completion string.
Variable getGaugeAddress : string → Completion string.
Variable newContract : string → AbiArgument → Completion ContractInstance.
Variable formatUnits : string → nat → string.

(** *** [stakedPools] *)

(** [stakedSharesMap.value[pool.id]] is an unguarded property read: a
    missing key gives [undefined].  Pool ids are hexadecimal identifiers,
    so the read never reaches a name inherited from [Object.prototype]. *)
Definition decorate (sharesMap : gmap string string) (p : Pool PoolData)
  : StakedPool PoolData :=
  let stakedBpt := sharesMap !! id p in
  mkStakedPool p (getBptBalanceFiatValue p stakedBpt) stakedBpt.

(** [stakedPoolsResponse.value?.pages[0].pools || []]. *)
Definition firstPagePools (response : option (PoolsResponse PoolData))
  : Completion (list (Pool PoolData)) :=
  match response with
  | None => Returns []
  | Some r =>
      match pages r with
      | [] => Throws undefinedPage
      | page0 :: _ => Returns (pools page0)
      end
  end.

Definition stakedPools (response : option (PoolsResponse PoolData))
  (sharesMap : gmap string string) : Completion (list (StakedPool PoolData)) :=
  match firstPagePools response with
  | Returns ps => Returns (map (decorate sharesMap) ps)
  | Throws e => Throws e
  end.

(** *** [totalStakedFiatValue] *)

Definition sumShares (stakedPools : list (StakedPool PoolData))
  : BigNumber.t :=
  fold_left (λ acc sp, BigNumber.plus acc (bnumOfString (shares sp)))
    stakedPools BigNumber.zero.

Definition totalStakedFiatValue (stakedPools : list (StakedPool PoolData))
  : string :=
  BigNumber.toString (sumShares stakedPools).

(** *** The class [LiquidityGauge]

    Source: [src/services/balancer/contracts/contracts/liquidity-gauge.ts].
    The constructor takes the address, then the ABI, the provider and the
    configuration, the last three with defaults, and builds the contract
    binding [instance] from the first three.  The class has one more
    member, the private [getMulticaller]; it has no [balance]. *)
Record LiquidityGauge := mkLiquidityGauge {
  address  : string;
  abi      : AbiArgument;
  instance : ContractInstance
}.

(** [new LiquidityGauge(address, abi)]: whatever the contract constructor
    throws leaves the class constructor. *)
Definition newLiquidityGauge (gaugeAddress : string) (abiArgument : AbiArgument)
  : Completion LiquidityGauge :=
  match newContract gaugeAddress abiArgument with
  | Returns c => Returns (mkLiquidityGauge gaugeAddress abiArgument c)
  | Throws e => Throws e
  end.

(** [gauge.balance(account)]: [balance] is undefined on the object, so the
    call throws before anything is read. *)
Definition gauge_balance (g : LiquidityGauge) (account : string)
  : Completion Z :=
  Throws balanceIsNotAFunction.

(** *** [getStakedShares]

    The guard comes first; only then are the address checksummed and the
    gauge of the pool resolved, each of which may reject.  The gauge
    object is then built with the provider as second constructor
    argument, where the class expects the ABI, and its [balance] is
    called. *)
Definition getStakedShares (poolAddress account : string) : Async string :=
  if negb (js_truthy poolAddress) then reject missingPoolAddress
  else
    checksummed ← await (CallGetAddress poolAddress) (getAddress poolAddress);
    gaugeAddress ← await (CallGetGaugeAddress checksummed)
                     (getGaugeAddress checksummed);
    gaugeObject ← await (CallNewContract gaugeAddress ProviderObject)
                    (newLiquidityGauge gaugeAddress ProviderObject);
    bal ← ([], gauge_balance gaugeObject account);
    resolve (formatUnits (BigNumber.intToString bal) 18).

(** [refetchStakedShares()] on the direct-read query [q], once the run it
    starts has ended. *)
Definition refetchStakedShares (poolAddress account : string)
  (q : QueryResult string) : QueryResult string :=
  settle (refetch q) (getStakedShares poolAddress account).2.

(** *** The composable as a whole

    The three queries it owns, and the values it derives from them. *)
Record Queries := mkQueries {
  stakingData         : QueryResult UserGuageSharesResponse;
  stakedSharesQuery   : QueryResult string;
  stakedPoolsResponse : QueryResult (PoolsResponse PoolData)
}.

Definition initialQueries : Queries :=
  mkQueries initialQuery initialQuery initialQuery.

Definition view_userGaugeShares (qs : Queries) : list UserGuageShare :=
  userGaugeShares (data (stakingData qs)).


Definition view_stakedPoolIds (qs : Queries) : list string :=
  stakedPoolIds (isLoading (stakingData qs)) (view_userGaugeShares qs).



Definition view_stakedSharesForProvidedPool (qs : Queries) : string :=
  stakedSharesForProvidedPool (data (stakedSharesQuery qs)).

Inductive Event :=
| OnStakingData (ev : QueryEvent UserGuageSharesResponse)
| OnStakedShares (ev : QueryEvent string)
| OnStakedPools (ev : QueryEvent (PoolsResponse PoolData)).

(** Each query moves under the [enabled] option the composable gives it. *)
Definition step (isL2 : bool) (poolAddress : string) (qs : Queries)
  (ev : Event) : Queries :=
  match ev with
  | OnStakingData e =>
      mkQueries (queryStep (isStakingQueryEnabled isL2) (stakingData qs) e)
                (stakedSharesQuery qs) (stakedPoolsResponse qs)
  | OnStakedShares e =>
      mkQueries (stakingData qs)
                (queryStep (isStakedSharesQueryEnabled poolAddress)
                   (stakedSharesQuery qs) e)
                (stakedPoolsResponse qs)
  | OnStakedPools e =>
      mkQueries (stakingData qs) (stakedSharesQuery qs)
                (queryStep
                   (isStakedPoolsQueryEnabled (view_stakedPoolIds qs))
                   (stakedPoolsResponse qs) e)
  end.

Definition run (isL2 : bool) (poolAddress : string) (evs : list Event)
  : Queries :=
  fold_left (step isL2 poolAddress) evs initialQueries.

End Composable.

(** ** Reference definitions for the statements *)

Definition poolIdOf (s : UserGuageShare) : string := poolId (gauge s).

(** The balance of the last share of [L] whose pool is [k], if any. *)
Definition lastBalanceFor (k : string) (L : list UserGuageShare)
  : option string :=
  balance <$> last (filter (λ s, poolIdOf s = k) L).

(** ** Concrete inputs

    The account of the specification's scenario holds pools A and B, the
    allow-list is A and C, and the graph reports one share of 150.0 in A. *)
Module Scenario.

Definition membership : list string := ["A"; "B"].
Definition allowList : list string := ["A"; "C"].

Definition shareA : UserGuageShare := mkShare "share-A" (mkGauge "A") "150.0".

(** Two gauges of the same pool. *)
Definition firstOfA : UserGuageShare := mkShare "share-1" (mkGauge "A") "1".
Definition secondOfA : UserGuageShare := mkShare "share-2" (mkGauge "A") "2".

Definition poolA : Pool unit := mkPool "A" tt.
Definition poolB : Pool unit := mkPool "B" tt.

Definition staked15 : StakedPool unit := mkStakedPool poolA "1.5" (Some "1.5").
Definition staked225 : StakedPool unit :=
  mkStakedPool poolB "2.25" (Some "2.25").

(** A first direct read that fails. *)
Definition failedFirstRead : QueryResult string :=
  fold_left (queryStep true) [Trigger; Failure] initialQuery.

(** The gauge-share query in flight, shown with a response attached. *)
Definition loadingWithShares : QueryResult UserGuageSharesResponse :=
  mkQuery Loading (Some (mkResp [shareA] [])) true.

End Scenario.

(** ** Reading a printed number back

    The notation [toString] prints, read independently of it: an optional
    sign, then digits with at most one point and an optional exponent part
    ([e], a sign, digits), or [Infinity]; anything else is not a number.
    The value read is stored as the library stores values. *)
Module Numeral.

Local Open Scope Z_scope.

Definition isDigit (ch : ascii) : bool :=
  match BigNumber.digitValue ch with Some _ => true | None => false end.

Fixpoint allDigits (s : string) : bool :=
  match s with
  | EmptyString => true
  | String ch rest => isDigit ch && allDigits rest
  end.

Definition nonEmpty (s : string) : bool :=
  match s with EmptyString => false | _ => true end.

(** The number a digit string denotes, continuing from [acc]. *)
Fixpoint horner (s : string) (acc : Z) : Z :=
  match s with
  | EmptyString => acc
  | String ch rest =>
      horner rest (acc * 10 + default 0 (BigNumber.digitValue ch))
  end.

(** The same on the standard library's digit lists. *)
Fixpoint hornerU (d : Decimal.uint) (acc : Z) : Z :=
  match d with
  | Decimal.Nil => acc
  | Decimal.D0 l => hornerU l (acc * 10 + 0)
  | Decimal.D1 l => hornerU l (acc * 10 + 1)
  | Decimal.D2 l => hornerU l (acc * 10 + 2)
  | Decimal.D3 l => hornerU l (acc * 10 + 3)
  | Decimal.D4 l => hornerU l (acc * 10 + 4)
  | Decimal.D5 l => hornerU l (acc * 10 + 5)
  | Decimal.D6 l => hornerU l (acc * 10 + 6)
  | Decimal.D7 l => hornerU l (acc * 10 + 7)
  | Decimal.D8 l => hornerU l (acc * 10 + 8)
  | Decimal.D9 l => hornerU l (acc * 10 + 9)
  end.

Definition readNat (s : string) : option Z :=
  match s with
  | EmptyString => None
  | _ => if allDigits s then Some (horner s 0) else None
  end.

Definition readExponent (s : string) : option Z :=
  match s with
  | String "+"%char rest => readNat rest
  | String "-"%char rest => Z.opp <$> readNat rest
  | _ => readNat s
  end.

(** [readNumeral seenDot any c scale s]: [c] accumulates the digits read,
    [scale] counts those after the point, [any] tells whether a digit was
    read; the result is the coefficient and the exponent of its last
    digit. *)
Fixpoint readNumeral (seenDot any : bool) (c scale : Z) (s : string)
  : option (Z * Z) :=
  match s with
  | EmptyString => if any then Some (c, - scale) else None
  | String ch rest =>
      if Ascii.eqb ch "."%char then
        if seenDot then None else readNumeral true any c scale rest
      else if Ascii.eqb ch "e"%char then
        if any then (λ x, (c, x - scale)) <$> readExponent rest else None
      else
        match BigNumber.digitValue ch with
        | None => None
        | Some d =>
            readNumeral seenDot true (c * 10 + d)
              (if seenDot then scale + 1 else scale) rest
        end
  end.

Definition readPrinted (s : string) : BigNumber.t :=
  let '(negative, body) :=
    match s with
    | String "-"%char rest => (true, rest)
    | String "+"%char rest => (false, rest)
    | _ => (false, s)
    end in
  match readNumeral false false 0 0 body with
  | Some (c, e) => BigNumber.normalise (if negative then - c else c) e
  | None => if String.eqb body "Infinity" then BigNumber.Inf negative
            else BigNumber.NaN
  end.

(** The reader makes of [body] the coefficient [h] at exponent [e],
    possibly with zeros moved in from the exponent. *)
Definition reads (body : string) (h e : Z) : Prop :=
  ∃ k, 0 ≤ k ∧ readNumeral false false 0 0 body = Some (h * 10 ^ k, e - k).

End Numeral.

(** ** Further definitions *)

Definition userLiquidityGauges (stakingData : option UserGuageSharesResponse)
  : list UserLiquidityGauge :=
  match stakingData with
  | None => []
  | Some d => liquidityGauges d
  end.

(** A value as the library stores it: a finite value is its own normal
    form. *)
Definition normalForm (x : BigNumber.t) : Prop :=
  match x with
  | BigNumber.Fin c e => BigNumber.normalise c e = BigNumber.Fin c e
  | _ => True
  end.

(** Further concrete inputs: a second share, positions whose value is not
    a number or is zero, and collaborators of the direct read that answer
    or fail. *)
Module Portfolio.

Definition shareB : UserGuageShare := mkShare "share-B" (mkGauge "B") "20.5".

Definition stakedNaN : StakedPool unit :=
  mkStakedPool Scenario.poolB "NaN" None.
Definition stakedZero : StakedPool unit :=
  mkStakedPool Scenario.poolB "0.00" (Some "0").

Definition checksum (a : string) : Completion string := Returns a.
Definition badChecksum (a : string) : Completion string :=
  Throws (mkError "Error" "invalid address").
Definition gaugeOf (a : string) : Completion string :=
  Returns ("gauge-of-" +:+ a).
Definition bindContract (g : string) (abi : AbiArgument) : Completion unit :=
  Returns tt.
Definition refuseAbi (g : string) (abi : AbiArgument) : Completion unit :=
  match abi with
  | DefaultAbi => Returns tt
  | ProviderObject => Throws (mkError "TypeError" "abi.map is not a function")
  end.
Definition plainUnits (s : string) (decimals : nat) : string := s.

End Portfolio.

(** * Properties *)

(** ** The stakeable filter *)

Lemma push_common_elem (ys res : list string) (x y : string) :
  y ∈ Lodash.push_common ys res x ↔ y ∈ res ∨ (y = x ∧ x ∈ ys).
Proof.
  unfold Lodash.push_common.
  destruct (bool_decide (x ∉ res)) eqn:Hres;
    destruct (bool_decide (x ∈ ys)) eqn:Hys; simpl.
  - apply bool_decide_eq_true in Hys.
    rewrite elem_of_app, list_elem_of_singleton. tauto.
  - apply bool_decide_eq_false in Hys. tauto.
  - apply bool_decide_eq_false in Hres. apply dec_stable in Hres.
    intuition (subst; auto).
  - apply bool_decide_eq_false in Hys. tauto.
Qed.

Lemma intersection_fold_elem (ys xs res : list string) (y : string) :
  y ∈ fold_left (Lodash.push_common ys) xs res ↔ y ∈ res ∨ (y ∈ xs ∧ y ∈ ys).
Proof.
  revert res. induction xs as [|x xs IH]; intros res; simpl.
  - rewrite elem_of_nil. tauto.
  - rewrite IH, push_common_elem, elem_of_cons. intuition (subst; auto).
Qed.

(** Membership in a lodash intersection. *)
Lemma intersection_elem (xs ys : list string) (y : string) :
  y ∈ Lodash.intersection xs ys ↔ y ∈ xs ∧ y ∈ ys.
Proof.
  unfold Lodash.intersection.
  rewrite intersection_fold_elem, elem_of_nil. tauto.
Qed.

Lemma push_common_NoDup (ys res : list string) (x : string) :
  NoDup res → NoDup (Lodash.push_common ys res x).
Proof.
  intros Hnd. unfold Lodash.push_common.
  destruct (bool_decide (x ∉ res)) eqn:Hres; simpl; [|done].
  destruct (bool_decide (x ∈ ys)); simpl; [|done].
  apply bool_decide_eq_true in Hres.
  apply NoDup_app. split_and!; [done| |apply NoDup_singleton].
  intros z Hz Hz'. apply list_elem_of_singleton in Hz'. by subst.
Qed.

Lemma intersection_NoDup (xs ys : list string) :
  NoDup (Lodash.intersection xs ys).
Proof.
  unfold Lodash.intersection. generalize (NoDup_nil_2 (A:=string)).
  generalize (@nil string).
  induction xs as [|x xs IH]; intros res Hres; simpl; [done|].
  apply IH, push_common_NoDup, Hres.
Qed.

(** C7. Whatever the pool membership and the allow-list, every id of
    [stakeableUserPoolIds] is a membership id and an allow-list id, and an
    empty allow-list leaves nothing. *)
Theorem stakeable_filter_subset (userPoolIds AllowList : list string) :
  stakeableUserPoolIds userPoolIds AllowList ⊆ userPoolIds
  ∧ stakeableUserPoolIds userPoolIds AllowList ⊆ AllowList
  ∧ stakeableUserPoolIds userPoolIds [] = [].
Proof.
  unfold stakeableUserPoolIds. split_and!.
  - intros y Hy. by apply intersection_elem in Hy as [? _].
  - intros y Hy. by apply intersection_elem in Hy as [_ ?].
  - apply elem_of_nil_inv. intros y Hy.
    apply intersection_elem in Hy as [_ Hy]. by apply elem_of_nil in Hy.
Qed.

Example scenario_stakeable :
  stakeableUserPoolIds Scenario.membership Scenario.allowList = ["A"].
Proof. reflexivity. Qed.

(** ** The staked-share dictionary *)

Lemma stakedSharesMap_snoc (L : list UserGuageShare) (s : UserGuageShare) :
  stakedSharesMap (L ++ [s]) = <[poolIdOf s := balance s]> (stakedSharesMap L).
Proof.
  unfold stakedSharesMap, JsObject.fromEntries.
  by rewrite map_app, fold_left_app.
Qed.

Lemma lastBalanceFor_snoc (k : string) (L : list UserGuageShare)
  (s : UserGuageShare) :
  lastBalanceFor k (L ++ [s]) =
  if decide (poolIdOf s = k) then Some (balance s) else lastBalanceFor k L.
Proof.
  unfold lastBalanceFor. rewrite filter_app.
  case_decide as Hk.
  - rewrite filter_cons_True, filter_nil by done. by rewrite last_snoc.
  - rewrite filter_cons_False, filter_nil by done. by rewrite app_nil_r.
Qed.

(** Reading a key gives the last balance written for it. *)
Lemma stakedSharesMap_lookup (L : list UserGuageShare) (k : string) :
  stakedSharesMap L !! k = lastBalanceFor k L.
Proof.
  induction L as [|s L IH] using rev_ind; [done|].
  rewrite stakedSharesMap_snoc, lastBalanceFor_snoc, lookup_insert.
  by case_decide.
Qed.

Lemma stakedSharesMap_dom (L : list UserGuageShare) :
  dom (stakedSharesMap L) = list_to_set (map poolIdOf L).
Proof.
  induction L as [|s L IH] using rev_ind; [done|].
  rewrite stakedSharesMap_snoc, dom_insert_L, IH, map_app, list_to_set_app_L.
  simpl. rewrite (right_id_L ∅ (∪)). apply (comm_L (∪)).
Qed.

Lemma stakedSharesMap_size (L : list UserGuageShare) :
  size (stakedSharesMap L) = length (remove_dups (map poolIdOf L)).
Proof.
  rewrite <- (size_dom (D := gset string)), stakedSharesMap_dom.
  rewrite <- (size_list_to_set (C := gset string)) by apply NoDup_remove_dups.
  f_equal. apply set_eq. intros k.
  by rewrite !elem_of_list_to_set, elem_of_remove_dups.
Qed.

Lemma lastBalanceFor_NoDup (L : list UserGuageShare) (s : UserGuageShare) :
  NoDup (map poolIdOf L) → s ∈ L →
  lastBalanceFor (poolIdOf s) L = Some (balance s).
Proof.
  induction L as [|s' L IH] using rev_ind; intros Hnd Hs.
  - by apply elem_of_nil in Hs.
  - rewrite map_app in Hnd. apply NoDup_app in Hnd as (Hnd & Hdis & _).
    rewrite lastBalanceFor_snoc. apply elem_of_app in Hs as [Hs|Hs].
    + case_decide as Heq; [|by apply IH].
      exfalso. apply (Hdis (poolIdOf s)).
      * apply list_elem_of_fmap. by exists s.
      * simpl. rewrite Heq. by apply list_elem_of_singleton.
    + apply list_elem_of_singleton in Hs as ->. by rewrite decide_True.
Qed.

(** C1, as amended.  For every gauge-share list the dictionary has exactly
    the pool ids of the list as keys, one entry per distinct pool id, and
    the entry of a pool id holds the balance of the last share of the list
    with that pool id; when the pool ids of the list are pairwise distinct
    that is the balance of every share. *)
Theorem stakedSharesMap_entries (L : list UserGuageShare) :
  dom (stakedSharesMap L) = list_to_set (map poolIdOf L)
  ∧ size (stakedSharesMap L) = length (remove_dups (map poolIdOf L))
  ∧ (∀ k, stakedSharesMap L !! k = lastBalanceFor k L)
  ∧ (NoDup (map poolIdOf L) →
     ∀ s, s ∈ L → stakedSharesMap L !! poolIdOf s = Some (balance s)).
Proof.
  split_and!.
  - apply stakedSharesMap_dom.
  - apply stakedSharesMap_size.
  - apply stakedSharesMap_lookup.
  - intros Hnd s Hs. rewrite stakedSharesMap_lookup.
    by apply lastBalanceFor_NoDup.
Qed.

Lemma stakedSharesMap_entries_witness :
  NoDup (map poolIdOf [Scenario.shareA])
  ∧ ∀ s, s ∈ [Scenario.shareA] →
      stakedSharesMap [Scenario.shareA] !! poolIdOf s = Some (balance s).
Proof.
  assert (Hnd : NoDup (map poolIdOf [Scenario.shareA]))
    by apply NoDup_singleton.
  split; [exact Hnd|].
  exact (proj2 (proj2 (proj2 (stakedSharesMap_entries [Scenario.shareA]))) Hnd).
Defined.

(** C1, as stated, fails when two shares carry one pool id: the entry
    holds the second balance, not the first share's. *)
Lemma stakedSharesMap_duplicate_poolId :
  Scenario.firstOfA ∈ [Scenario.firstOfA; Scenario.secondOfA]
  ∧ stakedSharesMap [Scenario.firstOfA; Scenario.secondOfA]
      !! poolIdOf Scenario.firstOfA = Some "2"
  ∧ stakedSharesMap [Scenario.firstOfA; Scenario.secondOfA]
      !! poolIdOf Scenario.firstOfA ≠ Some (balance Scenario.firstOfA).
Proof.
  split; [by left|].
  rewrite stakedSharesMap_lookup. split; [reflexivity|discriminate].
Qed.

Example scenario_stakedSharesMap :
  stakedSharesMap [Scenario.shareA] = {[ "A" := "150.0" ]}.
Proof.
  apply map_eq. intros k. rewrite stakedSharesMap_lookup.
  destruct (decide (k = "A")) as [->|Hk].
  - by rewrite lookup_singleton_eq.
  - rewrite lookup_singleton_ne by done.
    unfold lastBalanceFor. by rewrite filter_cons_False.
Qed.

(** ** Exact decimal addition

    [normalise] yields one representation per numeric value, so that
    equal sums are equal values of the library, digit for digit. *)
Module BigNumberFacts.
Import BigNumber.
Local Open Scope Z_scope.

(** Any two amounts of fuel that exceed the binary length of the coefficient
    strip the same zeros. *)
Lemma strip_fuel_irrelevant (f1 f2 : nat) (c e : Z) :
  c ≠ 0 → Z.abs c < 2 ^ (Z.of_nat f1 + 1) → Z.abs c < 2 ^ (Z.of_nat f2 + 1) →
  strip f1 c e = strip f2 c e.
Proof.
  revert f2 c e. induction f1 as [|f1 IH]; intros f2 c e Hc H1 H2.
  - assert (Hmod : c mod 10 ≠ 0).
    { change (2 ^ (Z.of_nat 0 + 1)) with 2 in H1.
      assert (c = 1 ∨ c = -1) as [-> | ->] by lia; done. }
    destruct f2; simpl; [done|].
    by rewrite (proj2 (Z.eqb_neq _ _) Hmod).
  - destruct f2 as [|f2]; simpl.
    + assert (Hmod : c mod 10 ≠ 0).
      { change (2 ^ (Z.of_nat 0 + 1)) with 2 in H2.
        assert (c = 1 ∨ c = -1) as [-> | ->] by lia; done. }
      by rewrite (proj2 (Z.eqb_neq _ _) Hmod).
    + destruct (Z.eqb_spec (c mod 10) 0) as [Hmod|Hmod]; [|done].
      assert (Hq : c = 10 * (c / 10)).
      { rewrite (Z.div_mod c 10) at 1 by lia. lia. }
      rewrite !Nat2Z.inj_succ in *.
      rewrite <- Z.add_1_r in H1, H2.
      rewrite (Z.pow_add_r 2 (Z.of_nat f1 + 1) 1) in H1 by lia.
      rewrite (Z.pow_add_r 2 (Z.of_nat f2 + 1) 1) in H2 by lia.
      apply IH; lia.
Qed.

Lemma fuel_enough (c : Z) : c ≠ 0 → Z.abs c < 2 ^ (Z.of_nat (fuel c) + 1).
Proof.
  intros Hc. unfold fuel.
  rewrite Z2Nat.id by apply Z.log2_nonneg.
  apply (Z.log2_spec (Z.abs c)). lia.
Qed.

(** Moving one factor ten from the exponent into the coefficient is undone
    by [normalise]. *)
Lemma normalise_times_ten (c e : Z) : normalise (c * 10) (e - 1) = normalise c e.
Proof.
  unfold normalise.
  destruct (Z.eqb_spec c 0) as [->|Hc]; [done|].
  destruct (Z.eqb_spec (c * 10) 0) as [?|Hc10]; [lia|].
  pose proof (fuel_enough (c * 10) Hc10) as Hf.
  destruct (fuel (c * 10)) as [|f] eqn:Ef.
  { change (2 ^ (Z.of_nat 0 + 1)) with 2 in Hf. lia. }
  simpl. rewrite Z.mod_mul by lia. simpl.
  rewrite Z.div_mul by lia. replace (e - 1 + 1) with e by lia.
  rewrite (strip_fuel_irrelevant f (fuel c) c e); [done|done| |by apply fuel_enough].
  rewrite Nat2Z.inj_succ, <- Z.add_1_r in Hf.
  rewrite (Z.pow_add_r 2 (Z.of_nat f + 1) 1) in Hf by lia. lia.
Qed.

Lemma normalise_scale (c e k : Z) :
  0 ≤ k → normalise (c * 10 ^ k) (e - k) = normalise c e.
Proof.
  intros Hk. revert e. pattern k. apply natlike_ind; [| |done].
  - intros e. f_equal; lia.
  - clear k Hk. intros k Hk IH e.
    rewrite Z.pow_succ_r by done.
    replace (c * (10 * 10 ^ k)) with (c * 10 ^ k * 10) by lia.
    replace (e - Z.succ k) with (e - k - 1) by lia.
    by rewrite normalise_times_ten.
Qed.

(** Two representations that agree once aligned on a common exponent have
    the same normal form. *)
Lemma normalise_aligned (c e c' e' d : Z) :
  d ≤ e → d ≤ e' → c * 10 ^ (e - d) = c' * 10 ^ (e' - d) →
  normalise c e = normalise c' e'.
Proof.
  intros Hd Hd' Heq.
  rewrite <- (normalise_scale c e (e - d)) by lia.
  rewrite <- (normalise_scale c' e' (e' - d)) by lia.
  rewrite Heq. f_equal; lia.
Qed.

Lemma ten_neq_0 : ¬ ((10 # 1) == 0)%Q.
Proof. discriminate. Qed.

Lemma Qvalue_scale (c e k : Z) :
  0 ≤ k → (Qvalue (c * 10 ^ k) (e - k) == Qvalue c e)%Q.
Proof.
  intros Hk. unfold Qvalue.
  rewrite inject_Z_mult, (Zpower_Qpower 10 k) by done.
  change (inject_Z 10) with (10 # 1)%Q.
  rewrite <- Qmult_assoc, <- Qpower_plus by apply ten_neq_0.
  by replace (k + (e - k)) with e by lia.
Qed.

Lemma Qvalue_aligned (c e c' e' d : Z) :
  d ≤ e → d ≤ e' → (Qvalue c e == Qvalue c' e')%Q →
  c * 10 ^ (e - d) = c' * 10 ^ (e' - d).
Proof.
  intros Hd Hd' Heq.
  rewrite <- (Qvalue_scale c e (e - d)) in Heq by lia.
  rewrite <- (Qvalue_scale c' e' (e' - d)) in Heq by lia.
  replace (e - (e - d)) with d in Heq by lia.
  replace (e' - (e' - d)) with d in Heq by lia.
  unfold Qvalue in Heq.
  apply Qmult_inj_r in Heq; [by apply inject_Z_injective|].
  apply Qpower_not_0, ten_neq_0.
Qed.

(** Equal numeric values have equal normal forms. *)
Lemma normalise_canonical (c e c' e' : Z) :
  (Qvalue c e == Qvalue c' e')%Q → normalise c e = normalise c' e'.
Proof.
  intros Heq. apply (normalise_aligned c e c' e' (Z.min e e')); [lia..|].
  apply Qvalue_aligned; [lia..|done].
Qed.

(** Stripping zeros keeps the numeric value. *)
Lemma strip_value (f : nat) (c e : Z) :
  (Qvalue (strip f c e).1 (strip f c e).2 == Qvalue c e)%Q.
Proof.
  revert c e. induction f as [|f IH]; intros c e; simpl; [reflexivity|].
  destruct (Z.eqb_spec (c mod 10) 0) as [Hmod|Hmod]; [|reflexivity].
  rewrite IH.
  rewrite <- (Qvalue_scale (c / 10) (e + 1) 1) by lia.
  assert (Hq : c = 10 * (c / 10)).
  { rewrite (Z.div_mod c 10) at 1 by lia. lia. }
  replace (c / 10 * 10 ^ 1) with c by lia.
  by replace (e + 1 - 1) with e by lia.
Qed.

Lemma Qvalue_zero (e : Z) : (Qvalue 0 e == 0)%Q.
Proof. unfold Qvalue. change (inject_Z 0) with 0%Q. apply Qmult_0_l. Qed.

Lemma normalise_Fin (c e : Z) :
  ∃ c' e', normalise c e = Fin c' e' ∧ (Qvalue c' e' == Qvalue c e)%Q.
Proof.
  unfold normalise. destruct (Z.eqb_spec c 0) as [->|Hc].
  - exists 0, 0. split; [done|]. by rewrite !Qvalue_zero.
  - pose proof (strip_value (fuel c) c e) as Hv.
    destruct (strip (fuel c) c e) as [c' e']. by exists c', e'.
Qed.

Lemma plus_Fin_aligned (c1 e1 c2 e2 : Z) :
  ∃ s m, plus (Fin c1 e1) (Fin c2 e2) = normalise s m
         ∧ (Qvalue s m == Qvalue c1 e1 + Qvalue c2 e2)%Q.
Proof.
  eexists _, _. split; [reflexivity|].
  set (m := Z.min e1 e2).
  rewrite <- (Qvalue_scale c1 e1 (e1 - m)) by lia.
  rewrite <- (Qvalue_scale c2 e2 (e2 - m)) by lia.
  replace (e1 - (e1 - m)) with m by lia.
  replace (e2 - (e2 - m)) with m by lia.
  unfold Qvalue. rewrite inject_Z_plus. ring.
Qed.

(** The sum of two finite values is finite, and its value is the rational
    sum of theirs. *)
Lemma plus_Fin (c1 e1 c2 e2 : Z) :
  ∃ c e, plus (Fin c1 e1) (Fin c2 e2) = Fin c e
         ∧ (Qvalue c e == Qvalue c1 e1 + Qvalue c2 e2)%Q.
Proof.
  destruct (plus_Fin_aligned c1 e1 c2 e2) as (s & m & -> & Hv).
  destruct (normalise_Fin s m) as (c & e & -> & Hv').
  exists c, e. split; [done|]. by rewrite Hv'.
Qed.

Lemma plus_Fin_swap (c1 e1 c2 e2 c3 e3 : Z) :
  plus (plus (Fin c1 e1) (Fin c2 e2)) (Fin c3 e3) =
  plus (plus (Fin c1 e1) (Fin c3 e3)) (Fin c2 e2).
Proof.
  destruct (plus_Fin c1 e1 c2 e2) as (a & ea & -> & Ha).
  destruct (plus_Fin c1 e1 c3 e3) as (b & eb & -> & Hb).
  destruct (plus_Fin_aligned a ea c3 e3) as (s & m & -> & Hs).
  destruct (plus_Fin_aligned b eb c2 e2) as (s' & m' & -> & Hs').
  apply normalise_canonical. rewrite Hs, Hs', Ha, Hb. ring.
Qed.

(** Two operands added to an accumulator can be added in either order. *)
Lemma plus_swap (a x y : t) : plus (plus a x) y = plus (plus a y) x.
Proof.
  destruct a as [|na|c1 e1], x as [|nx|c2 e2], y as [|ny|c3 e3];
    try apply plus_Fin_swap;
    repeat match goal with
      | |- context [plus (Fin ?a ?b) (Fin ?c ?d)] =>
          let H := fresh in
          destruct (plus_Fin a b c d) as (? & ? & H & _); rewrite H; clear H
      end;
    simpl; try done;
    repeat match goal with b : bool |- _ => destruct b end; done.
Qed.

End BigNumberFacts.

Section Properties.

Context {PoolData ContractInstance : Type}.
Variable getBptBalanceFiatValue : Pool PoolData → option string → string.
Variable bnumOfString : string → BigNumber.t.
Variable getAddress : string → Completion string.
Variable getGaugeAddress : string → Completion string.
Variable newContract : string → AbiArgument → Completion ContractInstance.
Variable formatUnits : string → nat → string.

(** ** The fiat total *)

(** The [reduce] of [totalStakedFiatValue] from any accumulator is the same
    on two arrangements of the staked pools. *)
Lemma fold_plus_Permutation (l l' : list (StakedPool PoolData)) :
  l ≡ₚ l' → ∀ acc,
  fold_left (λ acc sp, BigNumber.plus acc (bnumOfString (shares sp))) l acc =
  fold_left (λ acc sp, BigNumber.plus acc (bnumOfString (shares sp))) l' acc.
Proof.
  induction 1 as [|sp l l' _ IH|sp sp' l|l l' l'' _ IH _ IH'];
    intros acc; simpl.
  - done.
  - apply IH.
  - by rewrite BigNumberFacts.plus_swap.
  - by rewrite IH.
Qed.

(** From a finite accumulator the [reduce] stays finite and adds up the
    values exactly. *)
Lemma fold_plus_exact (l : list (StakedPool PoolData)) :
  Forall (λ sp, BigNumber.isFinite (bnumOfString (shares sp)) = true) l →
  ∀ c e, ∃ c' e',
    fold_left (λ acc sp, BigNumber.plus acc (bnumOfString (shares sp))) l
      (BigNumber.Fin c e) = BigNumber.Fin c' e'
    ∧ (BigNumber.Qvalue c' e' ==
       BigNumber.Qvalue c e +
       Qsum (map (λ sp, BigNumber.valueQ (bnumOfString (shares sp))) l))%Q.
Proof.
  induction 1 as [|sp l Hsp _ IH]; intros c e; cbn [fold_left map].
  - exists c, e. split; [done|]. change (Qsum []) with 0%Q. ring.
  - destruct (bnumOfString (shares sp)) as [| |c2 e2] eqn:Hv; try done.
    destruct (BigNumberFacts.plus_Fin c e c2 e2) as (c1 & e1 & -> & Hv1).
    destruct (IH c1 e1) as (c' & e' & -> & Hv').
    exists c', e'. split; [done|]. rewrite Hv', Hv1.
    change (Qsum (?x :: ?l)) with (x + Qsum l)%Q.
    cbn [BigNumber.valueQ]. ring.
Qed.

(** ** Gating of the enrichment query *)

(** C3. While the gauge-share query is loading, the pool-id list handed to
    the pool query is empty whatever the query holds, and the pool query
    is enabled exactly when that list is non-empty. *)
Theorem loading_gives_no_staked_pool_ids
  (q : QueryResult UserGuageSharesResponse) :
  let ids := stakedPoolIds (isLoading q) (userGaugeShares (data q)) in
  (isLoading q = true → ids = [] ∧ isStakedPoolsQueryEnabled ids = false)
  ∧ (isStakedPoolsQueryEnabled ids = true ↔ ids ≠ []).
Proof.
  intros ids. split.
  - intros Hl. subst ids. unfold stakedPoolIds. by rewrite Hl.
  - unfold isStakedPoolsQueryEnabled. destruct ids; simpl; split; done.
Qed.

(** ** The direct reading *)

(** C4, as amended.  The exposed value is ["0"] whenever the direct-read
    query holds no reading, whatever its status, and the held reading
    otherwise; a failed read leaves the exposed value as it was. *)
Theorem stakedShares_default_ignores_status (q : QueryResult string) :
  (data q = None → stakedSharesForProvidedPool (data q) = "0")
  ∧ (∀ reading, data q = Some reading → reading ≠ "" →
       stakedSharesForProvidedPool (data q) = reading)
  ∧ (∀ enabled,
       stakedSharesForProvidedPool (data (queryStep enabled q Failure)) =
       stakedSharesForProvidedPool (data q)).
Proof.
  split_and!.
  - by intros ->.
  - intros reading -> Hne. unfold stakedSharesForProvidedPool, js_truthy.
    destruct (String.eqb_spec reading ""); done.
  - intros enabled. simpl. by destruct (isFetching q).
Qed.

(** ** The fetch key of the gauge-share query *)

(** C5, as amended.  Two fetch keys are equal exactly when the accounts
    and the pool-membership id sequences are equal; equal keys give equal
    query documents, so the key changes whenever the account or the
    stakeable pool ids change. *)
Theorem stakingDataKey_tracks_membership (account account' : string)
  (userPoolIds userPoolIds' AllowList : list string) :
  (stakingDataKey account userPoolIds = stakingDataKey account' userPoolIds'
     ↔ account = account' ∧ userPoolIds = userPoolIds')
  ∧ (stakingDataKey account userPoolIds = stakingDataKey account' userPoolIds' →
     stakingDataDocument account userPoolIds AllowList =
     stakingDataDocument account' userPoolIds' AllowList).
Proof.
  assert (Hkey :
    stakingDataKey account userPoolIds = stakingDataKey account' userPoolIds'
    → account = account' ∧ userPoolIds = userPoolIds').
  { unfold stakingDataKey. intros [= -> ->]. done. }
  split.
  - split; [exact Hkey|]. by intros [-> ->].
  - intros Heq. by destruct (Hkey Heq) as [-> ->].
Qed.

(** ** Reading without a pool address *)

(** With an empty pool address no event moves the direct-read query. *)
Lemma stakedShares_query_stays_initial (isL2 : bool)
  (evs : list (@Event PoolData)) (qs : Queries) :
  stakedSharesQuery qs = initialQuery →
  stakedSharesQuery (fold_left (step isL2 "") evs qs) = initialQuery.
Proof.
  revert qs. induction evs as [|ev evs IH]; intros qs Hq; simpl; [done|].
  apply IH. destruct ev as [e|e|e]; simpl; [done| |done].
  rewrite Hq. by destruct e.
Qed.

(** C6, as amended.  With an empty pool address [getStakedShares] rejects
    with its own error before any collaborator is called; the direct-read
    query is disabled exactly for the empty address, and under it the
    query stays idle, never loading, through every automatic event.  A
    manual re-fetch still runs the read: the query is loading while that
    run is in flight and is in its error state once the rejection has
    arrived. *)
Theorem getStakedShares_without_pool_address (account : string) (isL2 : bool)
  (evs : list (@Event PoolData)) :
  getStakedShares getAddress getGaugeAddress newContract formatUnits ""
    account = ([], Throws missingPoolAddress)
  ∧ (∀ poolAddress,
       isStakedSharesQueryEnabled poolAddress = false ↔ poolAddress = "")
  ∧ isIdle (stakedSharesQuery (run isL2 "" evs)) = true
  ∧ isLoading (stakedSharesQuery (run isL2 "" evs)) = false
  ∧ isLoading (refetch (stakedSharesQuery (run isL2 "" evs))) = true
  ∧ status (refetchStakedShares getAddress getGaugeAddress newContract
              formatUnits "" account (stakedSharesQuery (run isL2 "" evs)))
    = Error.
Proof.
  unfold run. rewrite stakedShares_query_stays_initial by done.
  split_and!; try done.
  intros poolAddress. unfold isStakedSharesQueryEnabled, js_truthy.
  destruct (String.eqb_spec poolAddress ""); simpl; split; done.
Qed.

(** ** Networks without staking *)



(** ** Decoration of the staked pools *)

(** C9. [stakedPools] is empty while the pool query holds no response, and
    otherwise decorates the pools of the first page and nothing else: a
    pool that is not on the first page is not among the staked pools,
    whatever the later pages hold. *)
Theorem stakedPools_reads_first_page_only (sharesMap : gmap string string) :
  stakedPools getBptBalanceFiatValue None sharesMap = Returns []
  ∧ ∀ (page0 : PoolsPage PoolData) (later : list (PoolsPage PoolData)),
      stakedPools getBptBalanceFiatValue (Some (mkPages (page0 :: later)))
        sharesMap
        = Returns (map (decorate getBptBalanceFiatValue sharesMap)
                     (pools page0))
      ∧ ∀ (p : Pool PoolData) sps,
          stakedPools getBptBalanceFiatValue
            (Some (mkPages (page0 :: later))) sharesMap = Returns sps →
          p ∉ pools page0 → p ∉ map pool sps.
Proof.
  split; [done|]. intros page0 later. split; [done|].
  intros p sps [= <-] Hp. rewrite map_map. simpl. by rewrite map_id.
Qed.

(** C10. A pool of the first page whose id is no key of the staked-share
    dictionary is still decorated, in place: its [bpt] is undefined and
    its [shares] is the valuation of that undefined balance. *)
Theorem stakedPools_unguarded_lookup (userShares : list UserGuageShare)
  (page0 : PoolsPage PoolData) (later : list (PoolsPage PoolData))
  (i : nat) (p : Pool PoolData) :
  pools page0 !! i = Some p →
  stakedSharesMap userShares !! id p = None →
  ∃ sps,
    stakedPools getBptBalanceFiatValue (Some (mkPages (page0 :: later)))
      (stakedSharesMap userShares) = Returns sps
    ∧ length sps = length (pools page0)
    ∧ sps !! i = Some (mkStakedPool p (getBptBalanceFiatValue p None) None).
Proof.
  intros Hp Hm. eexists. split; [reflexivity|].
  split; [by rewrite length_map|].
  change (map ?f ?l) with (f <$> l). rewrite list_lookup_fmap, Hp. simpl.
  unfold decorate. by rewrite Hm.
Qed.

End Properties.

(** ** The statements at concrete inputs *)

Example total_of_two_positions :
  totalStakedFiatValue BigNumber.ofDecimalString
    [Scenario.staked15; Scenario.staked225] = "3.75".
Proof. reflexivity. Qed.

Lemma loading_gives_no_staked_pool_ids_witness :
  isLoading Scenario.loadingWithShares = true
  ∧ stakedPoolIds (isLoading Scenario.loadingWithShares)
      (userGaugeShares (data Scenario.loadingWithShares)) = []
  ∧ isStakedPoolsQueryEnabled
      (stakedPoolIds (isLoading Scenario.loadingWithShares)
         (userGaugeShares (data Scenario.loadingWithShares))) = false.
Proof.
  split; [reflexivity|].
  apply (proj1 (loading_gives_no_staked_pool_ids Scenario.loadingWithShares)).
  reflexivity.
Defined.

Lemma stakedShares_default_ignores_status_witness :
  data Scenario.failedFirstRead = None
  ∧ stakedSharesForProvidedPool (data Scenario.failedFirstRead) = "0".
Proof.
  split; [reflexivity|].
  apply (proj1 (stakedShares_default_ignores_status Scenario.failedFirstRead)).
  reflexivity.
Defined.

(** C4, as stated, fails: after a first read that failed the query is in
    its error state and the exposed value is the default ["0"], the very
    value exposed while the first read is still in flight. *)
Lemma failed_read_exposes_default :
  status Scenario.failedFirstRead = Error
  ∧ stakedSharesForProvidedPool (data Scenario.failedFirstRead) = "0"
  ∧ stakedSharesForProvidedPool
      (data (queryStep true (@initialQuery string) Trigger)) = "0".
Proof. repeat split. Qed.

Lemma stakingDataKey_tracks_membership_witness :
  stakingDataKey "0xAbC" Scenario.membership
    = stakingDataKey "0xAbC" Scenario.membership
  ∧ stakingDataDocument "0xAbC" Scenario.membership Scenario.allowList
    = stakingDataDocument "0xAbC" Scenario.membership Scenario.allowList.
Proof.
  split; [reflexivity|].
  apply (proj2 (stakingDataKey_tracks_membership "0xAbC" "0xAbC"
                  Scenario.membership Scenario.membership Scenario.allowList)).
  reflexivity.
Defined.

(** C5, as stated, fails: memberships that differ only in a pool outside
    the allow-list have the same stakeable ids and different fetch keys. *)
Lemma key_changes_with_unstakeable_membership :
  stakeableUserPoolIds ["A"; "B"] Scenario.allowList
    = stakeableUserPoolIds ["A"; "D"] Scenario.allowList
  ∧ stakingDataKey "0xAbC" ["A"; "B"] ≠ stakingDataKey "0xAbC" ["A"; "D"].
Proof. split; [reflexivity|discriminate]. Qed.

Example scenario_document :
  stakingDataDocument "0xAbC" Scenario.membership Scenario.allowList
  = mkDocument (mkSharesWhere "0xabc" "0") ["A"].
Proof. reflexivity. Qed.

Lemma getStakedShares_without_pool_address_witness :
  isStakedSharesQueryEnabled "" = false
  ∧ getStakedShares Portfolio.checksum Portfolio.gaugeOf Portfolio.refuseAbi
      Portfolio.plainUnits "" "0xAbC"
    = ([], Throws missingPoolAddress)
  ∧ isLoading
      (stakedSharesQuery
         (run (PoolData := unit) false ""
            [OnStakedShares Trigger; OnStakedShares (Settle "1.0")]))
    = false.
Proof.
  destruct (getStakedShares_without_pool_address (PoolData := unit)
              Portfolio.checksum Portfolio.gaugeOf Portfolio.refuseAbi
              Portfolio.plainUnits "0xAbC" false
              [OnStakedShares Trigger; OnStakedShares (Settle "1.0")])
    as (Hthrow & Hoff & _ & Hload & _).
  split; [apply Hoff; reflexivity|]. split; [exact Hthrow|exact Hload].
Defined.

(** C6, as stated, fails: the direct-read query of a composable set up
    without a pool address is disabled, yet a manual re-fetch invokes the
    read and the query is loading until the read has rejected. *)
Lemma refetch_without_pool_address_is_loading :
  isStakedSharesQueryEnabled "" = false
  ∧ isLoading (refetch (@initialQuery string)) = true
  ∧ (getStakedShares Portfolio.checksum Portfolio.gaugeOf Portfolio.refuseAbi
       Portfolio.plainUnits "" "0xAbC").2 = Throws missingPoolAddress
  ∧ status (refetchStakedShares Portfolio.checksum Portfolio.gaugeOf
              Portfolio.refuseAbi Portfolio.plainUnits "" "0xAbC"
              initialQuery) = Error.
Proof. repeat split. Qed.

Lemma stakedPools_reads_first_page_only_witness :
  stakedPools parValuation
    (Some (mkPages [mkPage [Scenario.poolA]; mkPage [Scenario.poolB]]))
    (stakedSharesMap [Scenario.shareA])
    = Returns [mkStakedPool Scenario.poolA "150" (Some "150.0")]
  ∧ (Scenario.poolB ∉ pools (mkPage [Scenario.poolA]))
  ∧ (Scenario.poolB
       ∉ map pool [mkStakedPool Scenario.poolA "150" (Some "150.0")]).
Proof.
  assert (Hrun : stakedPools parValuation
    (Some (mkPages [mkPage [Scenario.poolA]; mkPage [Scenario.poolB]]))
    (stakedSharesMap [Scenario.shareA])
    = Returns [mkStakedPool Scenario.poolA "150" (Some "150.0")])
    by (vm_compute; reflexivity).
  assert (Hout : Scenario.poolB ∉ pools (mkPage [Scenario.poolA])).
  { simpl. rewrite list_elem_of_singleton. discriminate. }
  split; [exact Hrun|]. split; [exact Hout|].
  exact (proj2 (proj2 (stakedPools_reads_first_page_only parValuation
                         (stakedSharesMap [Scenario.shareA]))
                  (mkPage [Scenario.poolA]) [mkPage [Scenario.poolB]])
           Scenario.poolB _ Hrun Hout).
Defined.

Lemma stakedPools_unguarded_lookup_witness :
  pools (mkPage [Scenario.poolA; Scenario.poolB]) !! 1 = Some Scenario.poolB
  ∧ stakedSharesMap [Scenario.shareA] !! id Scenario.poolB = None
  ∧ ∃ sps,
      stakedPools parValuation
        (Some (mkPages [mkPage [Scenario.poolA; Scenario.poolB]]))
        (stakedSharesMap [Scenario.shareA]) = Returns sps
      ∧ length sps = 2
      ∧ sps !! 1 = Some (mkStakedPool Scenario.poolB "NaN" None).
Proof.
  assert (Hat : pools (mkPage [Scenario.poolA; Scenario.poolB]) !! 1
                = Some Scenario.poolB) by reflexivity.
  assert (Hno : stakedSharesMap [Scenario.shareA] !! id Scenario.poolB = None)
    by (rewrite stakedSharesMap_lookup; reflexivity).
  split; [exact Hat|]. split; [exact Hno|].
  exact (stakedPools_unguarded_lookup parValuation [Scenario.shareA]
           (mkPage [Scenario.poolA; Scenario.poolB]) [] 1 Scenario.poolB
           Hat Hno).
Defined.

(** The scenario of the specification, end to end. *)
Example scenario_stakedPools :
  stakedPoolIds false [Scenario.shareA] = ["A"]
  ∧ stakedPools parValuation (Some (mkPages [mkPage [Scenario.poolA]]))
      (stakedSharesMap [Scenario.shareA])
    = Returns [mkStakedPool Scenario.poolA "150" (Some "150.0")].
Proof. split; [reflexivity|]. vm_compute. reflexivity. Qed.

(** * Further properties of the composable *)

(** ** The stakeable filter, exactly *)

Lemma push_common_sublist (ys res pre : list string) (x : string) :
  res `sublist_of` pre → Lodash.push_common ys res x `sublist_of` pre ++ [x].
Proof.
  intros Hsub. unfold Lodash.push_common.
  destruct (bool_decide (x ∉ res) && bool_decide (x ∈ ys)).
  - by apply sublist_app.
  - by apply sublist_inserts_r.
Qed.

Lemma intersection_fold_sublist (ys xs res pre : list string) :
  res `sublist_of` pre →
  fold_left (Lodash.push_common ys) xs res `sublist_of` pre ++ xs.
Proof.
  revert res pre. induction xs as [|x xs IH]; intros res pre Hsub; simpl.
  - by rewrite app_nil_r.
  - rewrite (cons_middle x pre xs), app_assoc.
    apply IH, push_common_sublist, Hsub.
Qed.

(** X1. The stakeable ids are exactly the membership ids found on the
    allow-list, each listed once, in the order in which the membership
    lists them. *)
Theorem stakeable_filter_exact (userPoolIds AllowList : list string) :
  (∀ y, y ∈ stakeableUserPoolIds userPoolIds AllowList
        ↔ y ∈ userPoolIds ∧ y ∈ AllowList)
  ∧ NoDup (stakeableUserPoolIds userPoolIds AllowList)
  ∧ stakeableUserPoolIds userPoolIds AllowList `sublist_of` userPoolIds.
Proof.
  unfold stakeableUserPoolIds. split_and!.
  - intros y. apply intersection_elem.
  - apply intersection_NoDup.
  - apply (intersection_fold_sublist AllowList userPoolIds [] []). done.
Qed.

Lemma stakeable_filter_exact_witness :
  ("A" ∈ Scenario.membership ∧ "A" ∈ Scenario.allowList)
  ∧ "A" ∈ stakeableUserPoolIds Scenario.membership Scenario.allowList.
Proof.
  assert (Hin : "A" ∈ Scenario.membership ∧ "A" ∈ Scenario.allowList)
    by (split; by left).
  split; [exact Hin|].
  exact (proj2 (proj1 (stakeable_filter_exact Scenario.membership
                         Scenario.allowList) "A") Hin).
Defined.

Lemma intersection_fold_NoDup_filter (ys xs res : list string) :
  NoDup (res ++ xs) →
  fold_left (Lodash.push_common ys) xs res = res ++ filter (λ y, y ∈ ys) xs.
Proof.
  revert res. induction xs as [|x xs IH]; intros res Hnd; simpl.
  - by rewrite filter_nil, app_nil_r.
  - assert (Hx : x ∉ res).
    { apply NoDup_app in Hnd as (_ & Hdis & _). intros Hin.
      apply (Hdis x Hin). by left. }
    unfold Lodash.push_common at 2.
    rewrite (bool_decide_eq_true_2 _ Hx). simpl.
    destruct (decide (x ∈ ys)) as [Hy|Hy].
    + rewrite (bool_decide_eq_true_2 _ Hy), filter_cons_True by done.
      rewrite IH; [by rewrite <- app_assoc|].
      by rewrite <- app_assoc.
    + rewrite (bool_decide_eq_false_2 _ Hy), filter_cons_False by done.
      apply IH. eapply NoDup_app in Hnd as (Hr & Hdis & Hxs).
      apply NoDup_app.
      split_and!; [done| |by apply NoDup_cons in Hxs as [_ ?]].
      intros z Hz Hz'. apply (Hdis z Hz). by right.
Qed.

(** X2. When the membership lists no pool twice, the stakeable ids are the
    membership ids with those outside the allow-list removed. *)
Theorem stakeable_filter_of_distinct_membership
  (userPoolIds AllowList : list string) :
  NoDup userPoolIds →
  stakeableUserPoolIds userPoolIds AllowList
  = filter (λ y, y ∈ AllowList) userPoolIds.
Proof.
  intros Hnd. unfold stakeableUserPoolIds, Lodash.intersection.
  by rewrite intersection_fold_NoDup_filter.
Qed.

Lemma stakeable_filter_of_distinct_membership_witness :
  NoDup Scenario.membership
  ∧ stakeableUserPoolIds Scenario.membership Scenario.allowList
    = filter (λ y, y ∈ Scenario.allowList) Scenario.membership.
Proof.
  assert (Hnd : NoDup Scenario.membership).
  { apply NoDup_cons. split; [|apply NoDup_singleton].
    rewrite list_elem_of_singleton. discriminate. }
  split; [exact Hnd|].
  exact (stakeable_filter_of_distinct_membership Scenario.membership
           Scenario.allowList Hnd).
Defined.

(** ** The dictionary and the ids handed to the pool query *)

(** X3. Once the gauge-share query is not loading, the ids handed to the
    pool query are one per share, their set is the key set of the
    staked-share dictionary, and the pool query is enabled exactly when
    the dictionary is not empty. *)
Theorem stakedPoolIds_are_dictionary_keys (userShares : list UserGuageShare) :
  list_to_set (stakedPoolIds false userShares)
    =@{gset string} dom (stakedSharesMap userShares)
  ∧ length (stakedPoolIds false userShares) = length userShares
  ∧ (isStakedPoolsQueryEnabled (stakedPoolIds false userShares) = true
     ↔ stakedSharesMap userShares ≠ ∅).
Proof.
  split_and!.
  - by rewrite stakedSharesMap_dom.
  - apply length_map.
  - destruct userShares as [|s l]; simpl.
    + split; [done|]. by intros [].
    + split; [|done]. intros _ Hempty.
      assert (Hin : poolIdOf s ∈ dom (stakedSharesMap (s :: l))).
      { rewrite stakedSharesMap_dom. simpl. apply elem_of_union_l.
        by apply elem_of_singleton. }
      rewrite Hempty, dom_empty_L in Hin. by apply not_elem_of_empty in Hin.
Qed.

Lemma stakedPoolIds_are_dictionary_keys_witness :
  isStakedPoolsQueryEnabled (stakedPoolIds false [Scenario.shareA]) = true
  ∧ stakedSharesMap [Scenario.shareA] ≠ ∅.
Proof.
  split; [reflexivity|].
  apply (proj2 (proj2 (stakedPoolIds_are_dictionary_keys [Scenario.shareA]))).
  reflexivity.
Defined.

Lemma lastBalanceFor_None (k : string) (L : list UserGuageShare) :
  k ∉ map poolIdOf L → lastBalanceFor k L = None.
Proof.
  intros Hk. unfold lastBalanceFor.
  replace (filter (λ s, poolIdOf s = k) L) with (@nil UserGuageShare); [done|].
  symmetry. apply elem_of_nil_inv. intros s Hs.
  apply list_elem_of_filter in Hs as [Heq Hs]. apply Hk.
  apply list_elem_of_fmap. by exists s.
Qed.

Lemma lastBalanceFor_Some (k b : string) (L : list UserGuageShare) :
  lastBalanceFor k L = Some b →
  ∃ s, s ∈ L ∧ poolIdOf s = k ∧ balance s = b.
Proof.
  unfold lastBalanceFor. intros Hl.
  apply fmap_Some in Hl as (s & Hlast & ->).
  apply last_Some_elem_of, list_elem_of_filter in Hlast as [Hk Hs].
  exists s. by split_and!.
Qed.

(** X4. When no two shares carry the same pool id, the dictionary does not
    depend on the order in which the graph lists the shares. *)
Theorem stakedSharesMap_Permutation (L L' : list UserGuageShare) :
  NoDup (map poolIdOf L) → L ≡ₚ L' → stakedSharesMap L = stakedSharesMap L'.
Proof.
  intros Hnd Hperm. apply map_eq. intros k.
  rewrite !stakedSharesMap_lookup.
  assert (Hnd' : NoDup (map poolIdOf L')).
  { change (NoDup (poolIdOf <$> L')). by rewrite <- Hperm. }
  destruct (decide (k ∈ map poolIdOf L)) as [Hin|Hout].
  - apply list_elem_of_fmap in Hin as (s & -> & Hs).
    rewrite (lastBalanceFor_NoDup L s Hnd Hs).
    rewrite (lastBalanceFor_NoDup L' s Hnd'); [done|]. by rewrite <- Hperm.
  - rewrite (lastBalanceFor_None k L Hout).
    rewrite (lastBalanceFor_None k L'); [done|].
    change (k ∉ poolIdOf <$> L'). by rewrite <- Hperm.
Qed.

Lemma stakedSharesMap_Permutation_witness :
  NoDup (map poolIdOf [Scenario.shareA; Portfolio.shareB])
  ∧ [Scenario.shareA; Portfolio.shareB]
      ≡ₚ [Portfolio.shareB; Scenario.shareA]
  ∧ stakedSharesMap [Scenario.shareA; Portfolio.shareB]
    = stakedSharesMap [Portfolio.shareB; Scenario.shareA].
Proof.
  assert (Hnd : NoDup (map poolIdOf [Scenario.shareA; Portfolio.shareB])).
  { apply NoDup_cons. split; [|apply NoDup_singleton].
    simpl. rewrite list_elem_of_singleton. discriminate. }
  assert (Hperm : [Scenario.shareA; Portfolio.shareB]
                    ≡ₚ [Portfolio.shareB; Scenario.shareA])
    by apply perm_swap.
  split; [exact Hnd|]. split; [exact Hperm|].
  exact (stakedSharesMap_Permutation _ _ Hnd Hperm).
Defined.

(** ** Sums of decimals *)

Module BigNumberSums.
Import BigNumber.
Local Open Scope Z_scope.

Lemma plus_comm (x y : t) : plus x y = plus y x.
Proof.
  destruct x as [|a|c1 e1], y as [|b|c2 e2]; simpl; try done.
  - by destruct a, b.
  - rewrite (Z.min_comm e2 e1). f_equal. lia.
Qed.

Lemma plus_assoc (x y z : t) : plus (plus x y) z = plus x (plus y z).
Proof.
  rewrite (plus_comm x (plus y z)), (BigNumberFacts.plus_swap y z x).
  by rewrite (plus_comm y x).
Qed.

Lemma plus_NaN_r (x : t) : plus x NaN = NaN.
Proof. by destruct x. Qed.

Lemma normalise_normalForm (c e : Z) : normalForm (normalise c e).
Proof.
  destruct (BigNumberFacts.normalise_Fin c e) as (c' & e' & Hn & Hv).
  rewrite Hn. simpl. rewrite <- Hn.
  by apply BigNumberFacts.normalise_canonical.
Qed.

(** Every sum is stored in normal form. *)
Lemma plus_normalForm (x y : t) : normalForm (plus x y).
Proof.
  destruct x as [|a|c1 e1], y as [|b|c2 e2]; simpl; try done.
  - by destruct (Bool.eqb a b).
  - apply normalise_normalForm.
Qed.

(** Zero is neutral on stored values. *)
Lemma plus_zero_r (x : t) : normalForm x → plus x zero = x.
Proof.
  destruct x as [|a|c e]; simpl; try done. intros Hn.
  rewrite <- Hn. apply BigNumberFacts.normalise_canonical.
  set (m' := Z.min e 0).
  rewrite <- (BigNumberFacts.Qvalue_scale c e (e - m')) by lia.
  replace (e - (e - m')) with m' by lia.
  unfold Qvalue. rewrite inject_Z_plus.
  replace (0 * 10 ^ (0 - m')) with 0 by lia.
  change (inject_Z 0) with 0%Q. ring.
Qed.

End BigNumberSums.

Section FurtherProperties.

Context {PoolData ContractInstance : Type}.
Variable getBptBalanceFiatValue : Pool PoolData → option string → string.
Variable bnumOfString : string → BigNumber.t.
Variable getAddress : string → Completion string.
Variable getGaugeAddress : string → Completion string.
Variable newContract : string → AbiArgument → Completion ContractInstance.
Variable formatUnits : string → nat → string.

(** ** The fiat total of parts, of non-numbers and of zeros *)

Lemma fold_plus_from (l : list (StakedPool PoolData)) (acc : BigNumber.t) :
  normalForm acc →
  fold_left (λ acc sp, BigNumber.plus acc (bnumOfString (shares sp))) l acc
  = BigNumber.plus acc (sumShares bnumOfString l).
Proof.
  intros Hacc. unfold sumShares.
  induction l as [|sp l IH] using rev_ind; simpl.
  - by rewrite BigNumberSums.plus_zero_r.
  - rewrite !fold_left_app. simpl.
    by rewrite IH, BigNumberSums.plus_assoc.
Qed.

Lemma sumShares_normalForm (l : list (StakedPool PoolData)) :
  normalForm (sumShares bnumOfString l).
Proof.
  unfold sumShares. induction l as [|sp l IH] using rev_ind; [done|].
  rewrite fold_left_app. apply BigNumberSums.plus_normalForm.
Qed.

(** X5. The total of two lists of staked pools put together is the sum of
    the two lists' sums. *)
Theorem total_of_concatenation (l l' : list (StakedPool PoolData)) :
  totalStakedFiatValue bnumOfString (l ++ l')
  = BigNumber.toString
      (BigNumber.plus (sumShares bnumOfString l) (sumShares bnumOfString l')).
Proof.
  unfold totalStakedFiatValue. f_equal.
  unfold sumShares at 1. rewrite fold_left_app.
  apply fold_plus_from, sumShares_normalForm.
Qed.

Lemma fold_plus_NaN (l : list (StakedPool PoolData)) :
  fold_left (λ acc sp, BigNumber.plus acc (bnumOfString (shares sp))) l
    BigNumber.NaN = BigNumber.NaN.
Proof. by induction l. Qed.

Lemma sumShares_NaN (sps : list (StakedPool PoolData))
  (sp : StakedPool PoolData) :
  sp ∈ sps → bnumOfString (shares sp) = BigNumber.NaN →
  sumShares bnumOfString sps = BigNumber.NaN.
Proof.
  intros Hin Hnan. apply list_elem_of_split in Hin as (l1 & l2 & ->).
  unfold sumShares. rewrite fold_left_app. simpl.
  by rewrite Hnan, BigNumberSums.plus_NaN_r, fold_plus_NaN.
Qed.

(** X6. One staked pool whose [shares] does not read as a number makes the
    whole total ["NaN"], whatever the other pools are worth. *)
Theorem total_is_NaN_when_a_share_is_NaN (sps : list (StakedPool PoolData))
  (sp : StakedPool PoolData) :
  sp ∈ sps → bnumOfString (shares sp) = BigNumber.NaN →
  totalStakedFiatValue bnumOfString sps = "NaN".
Proof.
  intros Hin Hnan. unfold totalStakedFiatValue.
  by rewrite (sumShares_NaN sps sp Hin Hnan).
Qed.

(** X7. A staked pool whose [shares] reads as zero, in any scale and at any
    place of the list, leaves the total as it is without that pool. *)
Theorem total_ignores_zero_share (l1 l2 : list (StakedPool PoolData))
  (sp : StakedPool PoolData) (e : Z) :
  bnumOfString (shares sp) = BigNumber.Fin 0 e →
  totalStakedFiatValue bnumOfString (l1 ++ sp :: l2)
  = totalStakedFiatValue bnumOfString (l1 ++ l2).
Proof.
  intros Hz. unfold totalStakedFiatValue, sumShares. f_equal.
  rewrite (fold_plus_Permutation bnumOfString (l1 ++ sp :: l2)
             (sp :: l1 ++ l2)) by (by rewrite Permutation_middle).
  simpl. by rewrite Hz.
Qed.

(** ** What the decoration writes *)

(** X8. When no two shares carry the same pool id, a pool of the first
    page that a share names is decorated with that share's balance as
    [bpt] and with the valuation of that balance as [shares]. *)
Theorem stakedPools_carries_share_balance (userShares : list UserGuageShare)
  (s : UserGuageShare) (page0 : PoolsPage PoolData)
  (later : list (PoolsPage PoolData)) (i : nat) (p : Pool PoolData) :
  NoDup (map poolIdOf userShares) → s ∈ userShares →
  pools page0 !! i = Some p → id p = poolIdOf s →
  ∃ sps,
    stakedPools getBptBalanceFiatValue (Some (mkPages (page0 :: later)))
      (stakedSharesMap userShares) = Returns sps
    ∧ sps !! i
      = Some (mkStakedPool p (getBptBalanceFiatValue p (Some (balance s)))
                (Some (balance s))).
Proof.
  intros Hnd Hs Hp Hid. eexists. split; [reflexivity|].
  change (map ?f ?l) with (f <$> l). rewrite list_lookup_fmap, Hp. simpl.
  unfold decorate. rewrite Hid, stakedSharesMap_lookup.
  by rewrite (lastBalanceFor_NoDup userShares s Hnd Hs).
Qed.

(** X9. A [bpt] that is defined is never made up: it is the balance of a
    share of the list that names the decorated pool, and [shares] is the
    valuation of that very balance. *)
Theorem stakedPools_bpt_comes_from_a_share (userShares : list UserGuageShare)
  (response : option (PoolsResponse PoolData))
  (sps : list (StakedPool PoolData)) (sp : StakedPool PoolData) (b : string) :
  stakedPools getBptBalanceFiatValue response (stakedSharesMap userShares)
    = Returns sps →
  sp ∈ sps → bpt sp = Some b →
  shares sp = getBptBalanceFiatValue (pool sp) (Some b)
  ∧ ∃ s, s ∈ userShares ∧ poolIdOf s = id (pool sp) ∧ balance s = b.
Proof.
  unfold stakedPools. intros Hrun Hsp Hb.
  destruct (firstPagePools response) as [ps|e]; [|done].
  injection Hrun as <-.
  change (map ?f ?l) with (f <$> l) in Hsp.
  apply list_elem_of_fmap in Hsp as (p & -> & Hp).
  unfold decorate in *. simpl in *. rewrite Hb. split; [done|].
  rewrite stakedSharesMap_lookup in Hb. by apply lastBalanceFor_Some.
Qed.

(** X11. A pool of the first page that no share names, valued at a string
    that does not read as a number, makes the total of the staked pools
    ["NaN"]. *)
Theorem missing_share_poisons_total (userShares : list UserGuageShare)
  (page0 : PoolsPage PoolData) (later : list (PoolsPage PoolData))
  (i : nat) (p : Pool PoolData) :
  pools page0 !! i = Some p →
  stakedSharesMap userShares !! id p = None →
  bnumOfString (getBptBalanceFiatValue p None) = BigNumber.NaN →
  ∃ sps,
    stakedPools getBptBalanceFiatValue (Some (mkPages (page0 :: later)))
      (stakedSharesMap userShares) = Returns sps
    ∧ totalStakedFiatValue bnumOfString sps = "NaN".
Proof.
  intros Hp Hm Hnan. eexists. split; [reflexivity|].
  unfold totalStakedFiatValue.
  rewrite (sumShares_NaN _
             (decorate getBptBalanceFiatValue (stakedSharesMap userShares) p));
    [done| |].
  - change (map ?f ?l) with (f <$> l). apply list_elem_of_fmap.
    exists p. split; [done|]. by apply list_elem_of_lookup_2 in Hp.
  - unfold decorate. simpl. by rewrite Hm.
Qed.

(** ** The query document *)

(** X12. The gauges asked for are exactly those of the pools of the
    user-pools response whose id is on the allow-list; without a response
    none is asked for. *)
Theorem stakingDataDocument_scope
  (userPoolsResponse : option (list (Pool PoolData)))
  (account : string) (AllowList : list string) (y : string) :
  y ∈ doc_liquidityGauges_poolId_in
        (stakingDataDocument account (userPoolIds userPoolsResponse) AllowList)
  ↔ (∃ p, p ∈ userPools userPoolsResponse ∧ id p = y) ∧ y ∈ AllowList.
Proof.
  unfold stakingDataDocument, stakeableUserPoolIds, userPoolIds. simpl.
  rewrite intersection_elem.
  change (map id (userPools userPoolsResponse))
    with (id <$> userPools userPoolsResponse).
  rewrite list_elem_of_fmap. split.
  - intros [(p & -> & Hp) Hal]. split; [by exists p|done].
  - intros [(p & Hp & <-) Hal]. split; [by exists p|done].
Qed.

(** ** The direct read, call by call *)

(** X13. [getStakedShares] never resolves: whatever the pool address, the
    account and the answers of its collaborators, its promise is
    rejected. *)
Theorem getStakedShares_never_resolves (poolAddress account : string) :
  ∃ calls e,
    getStakedShares getAddress getGaugeAddress newContract formatUnits
      poolAddress account = (calls, Throws e).
Proof.
  unfold getStakedShares, js_truthy.
  destruct (String.eqb_spec poolAddress "") as [->|Hne]; simpl.
  { by eexists _, _. }
  unfold await, resolve, mbind, Async_bind, newLiquidityGauge, gauge_balance.
  destruct (getAddress poolAddress) as [a|ea]; [|by eexists _, _].
  destruct (getGaugeAddress a) as [g|eg]; [|by eexists _, _].
  destruct (newContract g ProviderObject) as [c|ec]; by eexists _, _.
Qed.

(** X14. A rejection of [getStakedShares] is its own error for an empty
    pool address, with no collaborator called; or the error of the
    checksumming, of the gauge lookup or of the contract constructor,
    whichever failed first, passed on unchanged with nothing called after
    it; or, when all three succeeded, the TypeError of calling the
    [balance] the gauge object does not have.  The contract is always
    built with the provider where the ABI is expected. *)
Theorem getStakedShares_rejection_origin (poolAddress account : string)
  (calls : list Call) (e : JsError) :
  getStakedShares getAddress getGaugeAddress newContract formatUnits
    poolAddress account = (calls, Throws e) →
  (poolAddress = "" ∧ calls = [] ∧ e = missingPoolAddress)
  ∨ (poolAddress ≠ "" ∧ getAddress poolAddress = Throws e
     ∧ calls = [CallGetAddress poolAddress])
  ∨ (∃ a, poolAddress ≠ "" ∧ getAddress poolAddress = Returns a
          ∧ getGaugeAddress a = Throws e
          ∧ calls = [CallGetAddress poolAddress; CallGetGaugeAddress a])
  ∨ (∃ a g, poolAddress ≠ "" ∧ getAddress poolAddress = Returns a
            ∧ getGaugeAddress a = Returns g
            ∧ newContract g ProviderObject = Throws e
            ∧ calls = [CallGetAddress poolAddress; CallGetGaugeAddress a;
                       CallNewContract g ProviderObject])
  ∨ (∃ a g c, poolAddress ≠ "" ∧ getAddress poolAddress = Returns a
              ∧ getGaugeAddress a = Returns g
              ∧ newContract g ProviderObject = Returns c
              ∧ e = balanceIsNotAFunction
              ∧ calls = [CallGetAddress poolAddress; CallGetGaugeAddress a;
                         CallNewContract g ProviderObject]).
Proof.
  unfold getStakedShares, js_truthy.
  destruct (String.eqb_spec poolAddress "") as [->|Hne]; simpl.
  { intros [= <- <-]. by left. }
  unfold await, resolve, mbind, Async_bind, newLiquidityGauge, gauge_balance.
  destruct (getAddress poolAddress) as [a|ea] eqn:Ha.
  2:{ intros [= <- <-]. right. by left. }
  destruct (getGaugeAddress a) as [g|eg] eqn:Hg.
  2:{ intros [= <- <-]. right. right. left. by exists a. }
  destruct (newContract g ProviderObject) as [c|ec] eqn:Hc.
  2:{ intros [= <- <-]. right. right. right. left. by exists a, g. }
  intros [= <- <-]. right. right. right. right. by exists a, g, c.
Qed.

(** X15. The enabling flag of the direct-read query and the guard of
    [getStakedShares] agree: the flag is off exactly when the read rejects
    at its guard, and on exactly when the read reaches its first
    collaborator. *)
Theorem stakedShares_flag_matches_guard (poolAddress account : string) :
  (isStakedSharesQueryEnabled poolAddress = false
   ↔ getStakedShares getAddress getGaugeAddress newContract formatUnits
       poolAddress account = ([], Throws missingPoolAddress))
  ∧ (isStakedSharesQueryEnabled poolAddress = true
     ↔ ∃ rest,
         (getStakedShares getAddress getGaugeAddress newContract formatUnits
            poolAddress account).1 = CallGetAddress poolAddress :: rest).
Proof.
  unfold isStakedSharesQueryEnabled, getStakedShares, js_truthy.
  destruct (String.eqb_spec poolAddress "") as [->|Hne]; simpl.
  { split; split; try done. by intros [? ?]. }
  unfold await, resolve, mbind, Async_bind, newLiquidityGauge, gauge_balance.
  destruct (getAddress poolAddress) as [a|ea].
  2:{ split; split; try done. intros _. by eexists. }
  destruct (getGaugeAddress a) as [g|eg].
  2:{ split; split; try done. intros _. by eexists. }
  destruct (newContract g ProviderObject) as [c|ec]; simpl;
    split; split; try done; intros _; by eexists.
Qed.

End FurtherProperties.

Lemma lowerAscii_idempotent (ch : ascii) :
  lowerAscii (lowerAscii ch) = lowerAscii ch.
Proof. destruct ch as [[] [] [] [] [] [] [] []]; reflexivity. Qed.

Lemma toLowerCase_idempotent (s : string) :
  toLowerCase (toLowerCase s) = toLowerCase s.
Proof.
  induction s as [|ch s IH]; simpl; [done|].
  by rewrite lowerAscii_idempotent, IH.
Qed.

(** X16. The query document does not depend on the letter case of the
    account: the [user] filter is always in lower case, and an account
    given in lower case yields the same document. *)
Theorem stakingDataDocument_account_case (account : string)
  (userPoolIds AllowList : list string) :
  stakingDataDocument (toLowerCase account) userPoolIds AllowList
    = stakingDataDocument account userPoolIds AllowList
  ∧ toLowerCase
      (where_user (doc_gaugeShares_where
         (stakingDataDocument account userPoolIds AllowList)))
    = where_user (doc_gaugeShares_where
        (stakingDataDocument account userPoolIds AllowList)).
Proof.
  unfold stakingDataDocument. simpl.
  by rewrite toLowerCase_idempotent.
Qed.

(** ** The further statements at concrete inputs *)

Lemma total_is_NaN_when_a_share_is_NaN_witness :
  Portfolio.stakedNaN ∈ [Scenario.staked15; Portfolio.stakedNaN]
  ∧ BigNumber.ofDecimalString (shares Portfolio.stakedNaN) = BigNumber.NaN
  ∧ totalStakedFiatValue BigNumber.ofDecimalString
      [Scenario.staked15; Portfolio.stakedNaN] = "NaN".
Proof.
  assert (Hin : Portfolio.stakedNaN ∈ [Scenario.staked15; Portfolio.stakedNaN])
    by (right; left).
  assert (Hnan : BigNumber.ofDecimalString (shares Portfolio.stakedNaN)
                 = BigNumber.NaN) by reflexivity.
  split; [exact Hin|]. split; [exact Hnan|].
  exact (total_is_NaN_when_a_share_is_NaN BigNumber.ofDecimalString
           _ _ Hin Hnan).
Defined.

Lemma total_ignores_zero_share_witness :
  BigNumber.ofDecimalString (shares Portfolio.stakedZero) = BigNumber.Fin 0 0
  ∧ totalStakedFiatValue BigNumber.ofDecimalString
      ([Scenario.staked15] ++ Portfolio.stakedZero :: [Scenario.staked225])
    = totalStakedFiatValue BigNumber.ofDecimalString
        ([Scenario.staked15] ++ [Scenario.staked225]).
Proof.
  assert (Hz : BigNumber.ofDecimalString (shares Portfolio.stakedZero)
               = BigNumber.Fin 0 0) by reflexivity.
  split; [exact Hz|].
  exact (total_ignores_zero_share BigNumber.ofDecimalString
           [Scenario.staked15] [Scenario.staked225] Portfolio.stakedZero 0 Hz).
Defined.

Lemma stakedPools_carries_share_balance_witness :
  NoDup (map poolIdOf [Scenario.shareA])
  ∧ Scenario.shareA ∈ [Scenario.shareA]
  ∧ pools (mkPage [Scenario.poolA]) !! 0 = Some Scenario.poolA
  ∧ id Scenario.poolA = poolIdOf Scenario.shareA
  ∧ ∃ sps,
      stakedPools parValuation (Some (mkPages [mkPage [Scenario.poolA]]))
        (stakedSharesMap [Scenario.shareA]) = Returns sps
      ∧ sps !! 0 = Some (mkStakedPool Scenario.poolA "150" (Some "150.0")).
Proof.
  assert (Hnd : NoDup (map poolIdOf [Scenario.shareA]))
    by apply NoDup_singleton.
  assert (Hin : Scenario.shareA ∈ [Scenario.shareA]) by left.
  split; [exact Hnd|]. split; [exact Hin|].
  split; [reflexivity|]. split; [reflexivity|].
  exact (stakedPools_carries_share_balance parValuation [Scenario.shareA]
           Scenario.shareA (mkPage [Scenario.poolA]) [] 0 Scenario.poolA
           Hnd Hin eq_refl eq_refl).
Defined.

Lemma stakedPools_bpt_comes_from_a_share_witness :
  stakedPools parValuation (Some (mkPages [mkPage [Scenario.poolA]]))
    (stakedSharesMap [Scenario.shareA])
    = Returns [mkStakedPool Scenario.poolA "150" (Some "150.0")]
  ∧ ∃ s, s ∈ [Scenario.shareA]
         ∧ poolIdOf s = id Scenario.poolA ∧ balance s = "150.0".
Proof.
  assert (Hrun : stakedPools parValuation
    (Some (mkPages [mkPage [Scenario.poolA]]))
    (stakedSharesMap [Scenario.shareA])
    = Returns [mkStakedPool Scenario.poolA "150" (Some "150.0")])
    by (vm_compute; reflexivity).
  split; [exact Hrun|].
  refine (proj2 (stakedPools_bpt_comes_from_a_share parValuation
                   [Scenario.shareA] _ _
                   (mkStakedPool Scenario.poolA "150" (Some "150.0")) "150.0"
                   Hrun _ eq_refl)).
  by left.
Defined.

Lemma missing_share_poisons_total_witness :
  pools (mkPage [Scenario.poolA; Scenario.poolB]) !! 1 = Some Scenario.poolB
  ∧ stakedSharesMap [Scenario.shareA] !! id Scenario.poolB = None
  ∧ BigNumber.ofDecimalString (parValuation Scenario.poolB None)
    = BigNumber.NaN
  ∧ ∃ sps,
      stakedPools parValuation
        (Some (mkPages [mkPage [Scenario.poolA; Scenario.poolB]]))
        (stakedSharesMap [Scenario.shareA]) = Returns sps
      ∧ totalStakedFiatValue BigNumber.ofDecimalString sps = "NaN".
Proof.
  assert (Hno : stakedSharesMap [Scenario.shareA] !! id Scenario.poolB = None)
    by (rewrite stakedSharesMap_lookup; reflexivity).
  split; [reflexivity|]. split; [exact Hno|]. split; [reflexivity|].
  exact (missing_share_poisons_total parValuation BigNumber.ofDecimalString
           [Scenario.shareA] (mkPage [Scenario.poolA; Scenario.poolB]) [] 1
           Scenario.poolB eq_refl Hno eq_refl).
Defined.

Lemma stakingDataDocument_scope_witness :
  ((∃ p, p ∈ userPools (Some [Scenario.poolA; Scenario.poolB]) ∧ id p = "A")
   ∧ "A" ∈ Scenario.allowList)
  ∧ "A" ∈ doc_liquidityGauges_poolId_in
            (stakingDataDocument "0xAbC"
               (userPoolIds (Some [Scenario.poolA; Scenario.poolB]))
               Scenario.allowList).
Proof.
  assert (Hin :
    (∃ p, p ∈ userPools (Some [Scenario.poolA; Scenario.poolB]) ∧ id p = "A")
    ∧ "A" ∈ Scenario.allowList).
  { split; [|by left]. exists Scenario.poolA. split; [by left|reflexivity]. }
  split; [exact Hin|].
  exact (proj2 (stakingDataDocument_scope
                  (Some [Scenario.poolA; Scenario.poolB]) "0xAbC"
                  Scenario.allowList "A") Hin).
Defined.

Lemma getStakedShares_rejection_origin_witness :
  getStakedShares Portfolio.checksum Portfolio.gaugeOf Portfolio.refuseAbi
    Portfolio.plainUnits "0xPool" "0xAbC"
    = ([CallGetAddress "0xPool"; CallGetGaugeAddress "0xPool";
        CallNewContract "gauge-of-0xPool" ProviderObject],
       Throws (mkError "TypeError" "abi.map is not a function"))
  ∧ ∃ g, Portfolio.refuseAbi g ProviderObject
         = Throws (mkError "TypeError" "abi.map is not a function").
Proof.
  assert (Hrun : getStakedShares Portfolio.checksum Portfolio.gaugeOf
                   Portfolio.refuseAbi Portfolio.plainUnits "0xPool" "0xAbC"
    = ([CallGetAddress "0xPool"; CallGetGaugeAddress "0xPool";
        CallNewContract "gauge-of-0xPool" ProviderObject],
       Throws (mkError "TypeError" "abi.map is not a function")))
    by reflexivity.
  split; [exact Hrun|].
  destruct (getStakedShares_rejection_origin Portfolio.checksum
              Portfolio.gaugeOf Portfolio.refuseAbi Portfolio.plainUnits
              "0xPool" "0xAbC" _ _ Hrun)
    as [(Hpa & _)|[(_ & Ha & _)|[(a & _ & _ & Hg & _)
       |[(a & g & _ & _ & _ & Hc & _)|(a & g & c & _ & _ & _ & _ & He & _)]]]].
  - discriminate Hpa.
  - discriminate Ha.
  - discriminate Hg.
  - by exists g.
  - discriminate He.
Defined.

Lemma stakedShares_flag_matches_guard_witness :
  isStakedSharesQueryEnabled "0xPool" = true
  ∧ ∃ rest,
      (getStakedShares Portfolio.checksum Portfolio.gaugeOf
         Portfolio.refuseAbi Portfolio.plainUnits "0xPool" "0xAbC").1
      = CallGetAddress "0xPool" :: rest.
Proof.
  split; [reflexivity|].
  apply (proj1 (proj2 (stakedShares_flag_matches_guard Portfolio.checksum
                         Portfolio.gaugeOf Portfolio.refuseAbi
                         Portfolio.plainUnits "0xPool" "0xAbC"))).
  reflexivity.
Defined.

Example total_of_parts :
  totalStakedFiatValue BigNumber.ofDecimalString
    ([Scenario.staked15] ++ [Scenario.staked225; Portfolio.stakedZero])
  = "3.75".
Proof. reflexivity. Qed.

(** * The printed total

    [toString] loses nothing: the reader of the printed notation recovers
    the value.  The total is therefore tied to the decimal it prints. *)

Module NumeralFacts.
Import Numeral.
Local Open Scope Z_scope.

Lemma digit_is_plain (ch : ascii) (d : Z) :
  BigNumber.digitValue ch = Some d →
  Ascii.eqb ch "."%char = false ∧ Ascii.eqb ch "e"%char = false
  ∧ Ascii.eqb ch "-"%char = false ∧ Ascii.eqb ch "+"%char = false.
Proof.
  destruct ch as [[] [] [] [] [] [] [] []]; vm_compute; intros H;
    try discriminate H; done.
Qed.

Lemma horner_app (s1 s2 : string) (acc : Z) :
  horner (s1 +:+ s2) acc = horner s2 (horner s1 acc).
Proof. revert acc. induction s1 as [|ch s1 IH]; intros acc; simpl; [done|]. apply IH. Qed.

Lemma allDigits_app (s1 s2 : string) :
  allDigits (s1 +:+ s2) = allDigits s1 && allDigits s2.
Proof.
  induction s1 as [|ch s1 IH]; simpl; [done|].
  by rewrite IH, andb_assoc.
Qed.

Lemma length_app (s1 s2 : string) :
  String.length (s1 +:+ s2) = (String.length s1 + String.length s2)%nat.
Proof. induction s1 as [|ch s1 IH]; simpl; [done|]. by rewrite IH. Qed.

Lemma readNumeral_digits (s1 s2 : string) (seenDot any : bool) (c scale : Z) :
  allDigits s1 = true →
  readNumeral seenDot any c scale (s1 +:+ s2)
  = readNumeral seenDot (any || nonEmpty s1) (horner s1 c)
      (if seenDot then scale + Z.of_nat (String.length s1) else scale) s2.
Proof.
  revert any c scale. induction s1 as [|ch s1 IH]; intros any c scale Hd.
  - simpl. rewrite orb_false_r. by destruct seenDot; rewrite ?Z.add_0_r.
  - simpl in Hd. apply andb_true_iff in Hd as [Hch Hs1].
    unfold isDigit in Hch.
    destruct (BigNumber.digitValue ch) as [d|] eqn:Hv; [|done].
    destruct (digit_is_plain ch d Hv) as (Hdot & He & _).
    change (String ch s1 +:+ s2) with (String ch (s1 +:+ s2)).
    cbn [readNumeral horner nonEmpty String.length].
    rewrite Hdot, He, Hv, IH by done. cbn [default].
    rewrite orb_true_r.
    destruct seenDot; [|by destruct (nonEmpty s1)].
    destruct (nonEmpty s1); f_equal; lia.
Qed.

Lemma zeros_allDigits (k : nat) : allDigits (BigNumber.zeros k) = true.
Proof. by induction k. Qed.

Lemma zeros_length (k : nat) : String.length (BigNumber.zeros k) = k.
Proof. induction k; simpl; [done|]. by f_equal. Qed.

Lemma zeros_horner (k : nat) (acc : Z) :
  horner (BigNumber.zeros k) acc = acc * 10 ^ Z.of_nat k.
Proof.
  revert acc. induction k as [|k IH]; intros acc.
  - simpl. lia.
  - cbn [BigNumber.zeros horner]. rewrite IH.
    change (default 0 (BigNumber.digitValue "0")) with 0.
    rewrite Nat2Z.inj_succ, Z.pow_succ_r by lia. lia.
Qed.

(** Digit strings of the standard library. *)

Lemma uint_string_allDigits (d : Decimal.uint) :
  allDigits (NilEmpty.string_of_uint d) = true.
Proof. induction d; simpl; done. Qed.

Lemma uint_string_horner (d : Decimal.uint) (acc : Z) :
  horner (NilEmpty.string_of_uint d) acc = hornerU d acc.
Proof. revert acc. induction d; intros acc; simpl; try done; apply IHd. Qed.

Lemma hornerU_acc (d : Decimal.uint) (acc : positive) :
  hornerU d (Zpos acc) = Zpos (Pos.of_uint_acc d acc).
Proof.
  revert acc. induction d; intros acc; simpl; try done;
    rewrite <- IHd; f_equal; lia.
Qed.

Lemma hornerU_of_uint (d : Decimal.uint) :
  hornerU d 0 = Z.of_N (Pos.of_uint d).
Proof.
  induction d; simpl; try done;
    try (rewrite <- (hornerU_acc d _); f_equal; lia).
Qed.

Lemma digits_pos_horner (p : positive) :
  horner (BigNumber.digits (Zpos p)) 0 = Zpos p.
Proof.
  unfold BigNumber.digits.
  by rewrite uint_string_horner, hornerU_of_uint, Unsigned.of_to.
Qed.

Lemma digits_allDigits (n : Z) : allDigits (BigNumber.digits n) = true.
Proof. destruct n; simpl; try done. apply uint_string_allDigits. Qed.

Lemma digits_horner (n : Z) : 0 ≤ n → horner (BigNumber.digits n) 0 = n.
Proof.
  destruct n as [|p|p]; intros Hn; [done| |lia]. apply digits_pos_horner.
Qed.

Lemma digits_nonEmpty (n : Z) : nonEmpty (BigNumber.digits n) = true.
Proof.
  destruct n as [|p|p]; try done. simpl.
  destruct (NilEmpty.string_of_uint (Pos.to_uint p)) eqn:Hs; [|done].
  pose proof (digits_pos_horner p) as Hh. unfold BigNumber.digits in Hh.
  rewrite Hs in Hh. simpl in Hh. lia.
Qed.

End NumeralFacts.

Module PrintedFacts.
Import Numeral NumeralFacts.
Local Open Scope Z_scope.

Ltac same_pair :=
  apply (f_equal (@Some (Z * Z))); apply f_equal2;
  simpl; lia.

Lemma append_empty_r (s : string) : s +:+ "" = s.
Proof.
  induction s as [|ch s IH]; [done|].
  change (String ch s +:+ "") with (String ch (s +:+ "")). by rewrite IH.
Qed.

Lemma substring_whole (s : string) : substring 0 (String.length s) s = s.
Proof. induction s as [|ch s IH]; simpl; [done|]. by rewrite IH. Qed.

Lemma substring_split (s : string) (k : nat) :
  (k ≤ String.length s)%nat →
  substring 0 k s +:+ substring k (String.length s - k) s = s.
Proof.
  revert k. induction s as [|ch s IH]; intros k Hk.
  - by destruct k.
  - destruct k as [|k].
    + change (substring 0 0 (String ch s)) with "".
      rewrite Nat.sub_0_r. apply substring_whole.
    + simpl in Hk. cbn [substring String.length Nat.sub].
      change (String ch ?x +:+ ?y) with (String ch (x +:+ y)).
      rewrite IH by lia. done.
Qed.

Lemma substring_prefix_length (s : string) (k : nat) :
  (k ≤ String.length s)%nat → String.length (substring 0 k s) = k.
Proof.
  revert k. induction s as [|ch s IH]; intros k Hk.
  - destruct k; simpl in *; [done|lia].
  - destruct k as [|k]; [done|]. simpl in *. rewrite IH by lia. done.
Qed.

Lemma nonEmpty_length (s : string) :
  nonEmpty s = true ↔ (0 < String.length s)%nat.
Proof. destruct s; simpl; split; try done; lia. Qed.

(** Reading a digit string to its end. *)
Lemma readNumeral_all_digits (s : string) (seenDot any : bool) (c scale : Z) :
  allDigits s = true →
  readNumeral seenDot any c scale s
  = if any || nonEmpty s
    then Some (horner s c,
               - (if seenDot then scale + Z.of_nat (String.length s) else scale))
    else None.
Proof.
  intros Hd. rewrite <- (append_empty_r s) at 1.
  by rewrite readNumeral_digits.
Qed.

Lemma readNat_digits (n : Z) : 0 ≤ n → readNat (BigNumber.digits n) = Some n.
Proof.
  intros Hn. unfold readNat.
  pose proof (digits_nonEmpty n) as Hne.
  destruct (BigNumber.digits n) eqn:Hs; [done|]. rewrite <- Hs.
  by rewrite digits_allDigits, digits_horner.
Qed.

Lemma readNumeral_suffix (seenDot : bool) (c scale se : Z) :
  readNumeral seenDot true c scale
    ((if se <? 0 then "e" else "e+") +:+ BigNumber.intToString se)
  = Some (c, se - scale).
Proof.
  unfold BigNumber.intToString.
  destruct (Z.ltb_spec se 0) as [Hneg|Hpos].
  - change ("e" +:+ "-" +:+ BigNumber.digits (Z.abs se))
      with (String "e" (String "-" (BigNumber.digits (Z.abs se)))).
    cbn [readNumeral]. change (Ascii.eqb "e" ".") with false.
    change (Ascii.eqb "e" "e") with true. cbn [readExponent].
    rewrite readNat_digits by lia. simpl. same_pair.
  - change ("e+" +:+ BigNumber.digits se)
      with (String "e" (String "+" (BigNumber.digits se))).
    cbn [readNumeral]. change (Ascii.eqb "e" ".") with false.
    change (Ascii.eqb "e" "e") with true. cbn [readExponent].
    by rewrite readNat_digits by lia.
Qed.

Lemma reads_exponential (str : string) (se : Z) :
  allDigits str = true → nonEmpty str = true →
  reads (BigNumber.toExponential str se) (horner str 0)
    (se - (Z.of_nat (String.length str) - 1)).
Proof.
  intros Hd Hne. exists 0. split; [done|].
  rewrite Z.pow_0_r, Z.mul_1_r, Z.sub_0_r.
  unfold BigNumber.toExponential.
  destruct str as [|ch rest]; [done|].
  simpl in Hd. apply andb_true_iff in Hd as [Hch Hrest].
  unfold isDigit in Hch.
  destruct (BigNumber.digitValue ch) as [d|] eqn:Hv; [|done].
  destruct (digit_is_plain ch d Hv) as (Hdot & He & _).
  destruct rest as [|ch' rest'].
  - change (String ch "" +:+ ?s) with (String ch s).
    cbn [readNumeral horner String.length]. rewrite Hdot, He, Hv.
    rewrite readNumeral_suffix. same_pair.
  - set (rest := String ch' rest') in *.
    change (String ch ("." +:+ rest) +:+ ?s)
      with (String ch (String "." (rest +:+ s))).
    cbn [readNumeral horner String.length]. rewrite Hdot, He, Hv.
    change (Ascii.eqb "." ".") with true. cbn iota.
    rewrite readNumeral_digits by done.
    rewrite orb_true_l, readNumeral_suffix. same_pair.
Qed.

Lemma reads_fixed (str : string) (se : Z) :
  allDigits str = true → nonEmpty str = true →
  reads (BigNumber.toFixedPoint str se) (horner str 0)
    (se - (Z.of_nat (String.length str) - 1)).
Proof.
  intros Hd Hne. unfold BigNumber.toFixedPoint, reads.
  set (n := String.length str).
  assert (Hn : (0 < n)%nat) by (by apply nonEmpty_length).
  destruct (Z.ltb_spec se 0) as [Hneg|Hnn].
  { exists 0. split; [done|].
    rewrite Z.pow_0_r, Z.mul_1_r, Z.sub_0_r.
    change ("0." +:+ ?s) with (String "0" (String "." s)).
    cbn [readNumeral]. change (Ascii.eqb "0" ".") with false.
    change (Ascii.eqb "0" "e") with false.
    change (BigNumber.digitValue "0") with (Some 0).
    change (Ascii.eqb "." ".") with true. cbn iota.
    rewrite readNumeral_digits by apply zeros_allDigits.
    rewrite readNumeral_all_digits by done.
    rewrite zeros_horner, zeros_length. simpl orb. cbn iota.
    change (0 * 10 + 0) with 0. rewrite Z.mul_0_l.
    fold n. same_pair. }
  destruct (Z.ltb_spec (Z.of_nat n) (se + 1)) as [Hlong|Hshort].
  { exists (se + 1 - Z.of_nat n). split; [lia|].
    rewrite readNumeral_all_digits
      by (by rewrite allDigits_app, Hd, zeros_allDigits).
    rewrite horner_app, zeros_horner, Z2Nat.id by lia.
    rewrite orb_false_l.
    replace (nonEmpty (str +:+ _)) with true
      by (by destruct str). same_pair. }
  destruct (Z.ltb_spec (se + 1) (Z.of_nat n)) as [Hin|Hout].
  { exists 0. split; [done|].
    rewrite Z.pow_0_r, Z.mul_1_r, Z.sub_0_r.
    set (a := Z.to_nat (se + 1)).
    replace (Z.to_nat (Z.of_nat n - (se + 1))) with (n - a)%nat by lia.
    assert (Ha : (a ≤ n)%nat) by lia.
    pose proof (substring_split str a Ha) as Hsplit. fold n in Hsplit.
    pose proof (substring_prefix_length str a Ha) as Hlen1.
    set (s1 := substring 0 a str) in *.
    set (s2 := substring a (n - a) str) in *.
    assert (Hds : allDigits s1 = true ∧ allDigits s2 = true).
    { apply andb_true_iff. by rewrite <- allDigits_app, Hsplit. }
    destruct Hds as [Hd1 Hd2].
    assert (Hlen2 : String.length s2 = (n - a)%nat).
    { pose proof (f_equal String.length Hsplit) as Hl.
      rewrite length_app in Hl. fold n in Hl. lia. }
    rewrite readNumeral_digits by done.
    change ("." +:+ s2) with (String "." s2).
    cbn [readNumeral]. change (Ascii.eqb "." ".") with true. cbn iota.
    rewrite readNumeral_all_digits by done.
    rewrite <- horner_app, Hsplit, Hlen2.
    replace (nonEmpty s2) with true
      by (symmetry; apply nonEmpty_length; lia).
    rewrite orb_true_r. same_pair. }
  exists 0. split; [done|].
  rewrite Z.pow_0_r, Z.mul_1_r, Z.sub_0_r.
  rewrite readNumeral_all_digits by done. rewrite Hne. simpl orb. cbn iota.
  fold n. same_pair.
Qed.

Lemma reads_unsigned (body : string) (h e : Z) :
  reads body h e →
  match body with
  | String "-"%char rest => (true, rest)
  | String "+"%char rest => (false, rest)
  | _ => (false, body)
  end = (false, body).
Proof.
  intros (k & _ & Hread). destruct body as [|ch rest]; [done|].
  destruct ch as [[] [] [] [] [] [] [] []]; try reflexivity;
    cbn in Hread; discriminate Hread.
Qed.

Lemma readPrinted_unsigned (body : string) (h e : Z) :
  reads body h e →
  readPrinted body = BigNumber.normalise h e
  ∧ readPrinted ("-" +:+ body) = BigNumber.normalise (- h) e.
Proof.
  intros Hreads. pose proof (reads_unsigned body h e Hreads) as Hsign.
  destruct Hreads as (k & Hk & Hread). split.
  - unfold readPrinted. rewrite Hsign, Hread.
    rewrite <- (BigNumberFacts.normalise_scale h e k) by done. done.
  - change ("-" +:+ body) with (String "-" body).
    unfold readPrinted. rewrite Hread.
    rewrite <- (BigNumberFacts.normalise_scale (- h) e k) by done.
    f_equal. lia.
Qed.

(** Reading back what [toString] printed gives the value printed. *)
Lemma readPrinted_toString (x : BigNumber.t) :
  normalForm x → readPrinted (BigNumber.toString x) = x.
Proof.
  destruct x as [|negative|c e]; intros Hn.
  - reflexivity.
  - by destruct negative.
  - simpl in Hn. unfold BigNumber.toString.
    destruct (Z.eqb_spec c 0) as [->|Hc].
    { by rewrite <- Hn. }
    set (str := BigNumber.digits (Z.abs c)).
    set (se := e + Z.of_nat (String.length str) - 1).
    assert (Hd : allDigits str = true) by apply digits_allDigits.
    assert (Hne : nonEmpty str = true) by apply digits_nonEmpty.
    assert (Hh : horner str 0 = Z.abs c) by (apply digits_horner; lia).
    assert (He : se - (Z.of_nat (String.length str) - 1) = e)
      by (unfold se; lia).
    set (body := if (se <=? BigNumber.TO_EXP_NEG) || (BigNumber.TO_EXP_POS <=? se)
                 then BigNumber.toExponential str se
                 else BigNumber.toFixedPoint str se).
    assert (Hreads : reads body (Z.abs c) e).
    { rewrite <- Hh, <- He. unfold body.
      destruct ((se <=? BigNumber.TO_EXP_NEG) || (BigNumber.TO_EXP_POS <=? se));
        [by apply reads_exponential|by apply reads_fixed]. }
    destruct (readPrinted_unsigned body (Z.abs c) e Hreads) as [Hpos Hneg].
    rewrite <- Hn. destruct (Z.ltb_spec c 0) as [Hlt|Hge].
    + rewrite Hneg. f_equal. lia.
    + rewrite Hpos. f_equal. lia.
Qed.

End PrintedFacts.

Section PrintedTotal.

Context {PoolData : Type}.
Variable bnumOfString : string → BigNumber.t.

(** C2, as amended.  For every list of staked pools whose [shares] all
    read as finite decimals, the total is the printed form of a finite
    decimal, reading the total back gives that decimal, and its value is
    exactly the rational sum of the [shares]; a list with a [shares] that
    reads as NaN has the total ["NaN"]; and the total of every list is
    unchanged by reordering the list. *)
Theorem total_is_exact_decimal_sum :
  (∀ sps : list (StakedPool PoolData),
     Forall (λ sp, BigNumber.isFinite (bnumOfString (shares sp)) = true) sps →
     ∃ c e,
       totalStakedFiatValue bnumOfString sps
         = BigNumber.toString (BigNumber.Fin c e)
       ∧ Numeral.readPrinted (totalStakedFiatValue bnumOfString sps)
         = BigNumber.Fin c e
       ∧ (BigNumber.Qvalue c e ==
          Qsum (map (λ sp, BigNumber.valueQ (bnumOfString (shares sp))) sps))%Q)
  ∧ (∀ (sps : list (StakedPool PoolData)) (sp : StakedPool PoolData),
       sp ∈ sps → bnumOfString (shares sp) = BigNumber.NaN →
       totalStakedFiatValue bnumOfString sps = "NaN")
  ∧ (∀ sps sps' : list (StakedPool PoolData),
       sps ≡ₚ sps' →
       totalStakedFiatValue bnumOfString sps
         = totalStakedFiatValue bnumOfString sps').
Proof.
  split_and!.
  - intros sps Hfin.
    destruct (fold_plus_exact bnumOfString sps Hfin 0 0)
      as (c & e & Hsum & Hv).
    pose proof (sumShares_normalForm bnumOfString sps) as Hnormal.
    unfold totalStakedFiatValue. unfold sumShares, BigNumber.zero in *.
    rewrite Hsum in *. exists c, e. split_and!.
    + done.
    + by apply PrintedFacts.readPrinted_toString.
    + rewrite Hv, BigNumberFacts.Qvalue_zero. ring.
  - intros sps sp Hin Hnan. unfold totalStakedFiatValue.
    by rewrite (sumShares_NaN bnumOfString sps sp Hin Hnan).
  - intros sps sps' Hperm. unfold totalStakedFiatValue, sumShares.
    by rewrite (fold_plus_Permutation bnumOfString sps sps' Hperm).
Qed.

End PrintedTotal.

Lemma total_is_exact_decimal_sum_witness :
  Forall (λ sp, BigNumber.isFinite (BigNumber.ofDecimalString (shares sp)) = true)
    [Scenario.staked15; Scenario.staked225]
  ∧ [Scenario.staked15; Scenario.staked225]
      ≡ₚ [Scenario.staked225; Scenario.staked15]
  ∧ (∃ c e,
       totalStakedFiatValue BigNumber.ofDecimalString
         [Scenario.staked15; Scenario.staked225]
         = BigNumber.toString (BigNumber.Fin c e)
       ∧ Numeral.readPrinted
           (totalStakedFiatValue BigNumber.ofDecimalString
              [Scenario.staked15; Scenario.staked225])
         = BigNumber.Fin c e
       ∧ (BigNumber.Qvalue c e ==
          Qsum (map (λ sp, BigNumber.valueQ
                             (BigNumber.ofDecimalString (shares sp)))
                  [Scenario.staked15; Scenario.staked225]))%Q)
  ∧ totalStakedFiatValue BigNumber.ofDecimalString
      [Scenario.staked15; Scenario.staked225]
    = totalStakedFiatValue BigNumber.ofDecimalString
        [Scenario.staked225; Scenario.staked15].
Proof.
  assert (Hfin : Forall
    (λ sp, BigNumber.isFinite (BigNumber.ofDecimalString (shares sp)) = true)
    [Scenario.staked15; Scenario.staked225]) by (repeat constructor).
  assert (Hperm : [Scenario.staked15; Scenario.staked225]
                    ≡ₚ [Scenario.staked225; Scenario.staked15])
    by apply perm_swap.
  split; [exact Hfin|]. split; [exact Hperm|]. split.
  - exact (proj1 (total_is_exact_decimal_sum BigNumber.ofDecimalString)
             _ Hfin).
  - exact (proj2 (proj2 (total_is_exact_decimal_sum BigNumber.ofDecimalString))
             _ _ Hperm).
Defined.

(** C2, as stated, fails on a list the composable builds: a pool of the
    first page that no share names is valued at the undefined balance,
    its [shares] does not read as a number, and the total is ["NaN"],
    no decimal sum. *)
Lemma total_of_unstaked_pool_is_NaN :
  stakedPools parValuation
    (Some (mkPages [mkPage [Scenario.poolA; Scenario.poolB]]))
    (stakedSharesMap [Scenario.shareA])
    = Returns [mkStakedPool Scenario.poolA "150" (Some "150.0");
               mkStakedPool Scenario.poolB "NaN" None]
  ∧ totalStakedFiatValue BigNumber.ofDecimalString
      [mkStakedPool Scenario.poolA "150" (Some "150.0");
       mkStakedPool Scenario.poolB "NaN" None] = "NaN"
  ∧ Numeral.readPrinted "NaN" = BigNumber.NaN.
Proof.
  split; [vm_compute; reflexivity|]. split; reflexivity.
Qed.

Example total_printed_in_exponential_notation :
  totalStakedFiatValue BigNumber.ofDecimalString
    [mkStakedPool Scenario.poolA "500000000000000000000" None;
     mkStakedPool Scenario.poolB "500000000000000000000" None]
  = "1e+21"
  ∧ Numeral.readPrinted "1e+21" = BigNumber.Fin 1 21.
Proof. split; reflexivity. Qed.

(** Were the contract constructor to accept the provider as ABI, the read
    would still reject, at the missing [balance]. *)
Example read_with_a_bound_contract :
  getStakedShares Portfolio.checksum Portfolio.gaugeOf Portfolio.bindContract
    Portfolio.plainUnits "0xPool" "0xAbC"
  = ([CallGetAddress "0xPool"; CallGetGaugeAddress "0xPool";
      CallNewContract "gauge-of-0xPool" ProviderObject],
     Throws balanceIsNotAFunction).
Proof. reflexivity. Qed.
